(** * zulip-mobile: action taxonomy, narrow links and message-list HTML

    A shallow embedding of

    - [src/actionTypes.js]: the [Action] type unions and the classifier
      [isPerAccountApplicableAction];
    - [src/utils/internalLinks.js]: the dot-encoding of hash components and
      the link predicates;
    - [src/webview/html/messageListElementHtml.js]: the message-list
      renderer.

    JavaScript strings are sequences of UTF-16 code units, exceptions are an
    explicit outcome, and imported code that lives in other files is a
    section variable. *)

From Stdlib Require Import ZArith Lia List Bool Ascii String.
From stdpp Require Import base decidable list gmap sorting.
Import ListNotations.

Local Open Scope Z_scope.

(** ** JavaScript values shared by the three files *)

Module JS.

(** A string is its list of UTF-16 code units, each in [0, 0xFFFF]. *)
Abbreviation code_unit := Z.
Abbreviation jsstring := (list Z).

Definition is_code_unit (u : Z) : Prop := 0 <= u < 65536.

(** An ASCII literal as a JavaScript string. *)
Definition js (s : string) : jsstring :=
  map (fun a => Z.of_N (N_of_ascii a)) (list_ascii_of_string s).

(** [a === b] on strings. *)
Fixpoint strict_equal (a b : jsstring) : bool :=
  match a, b with
  | [], [] => true
  | x :: a', y :: b' => (x =? y) && strict_equal a' b'
  | _, _ => false
  end.

Inductive exn : Type :=
| URIError
| TypeError
| Error (message : jsstring).

(** A call either returns a value or throws. *)
Inductive outcome (A : Type) : Type :=
| Returns (a : A)
| Throws (e : exn).
Arguments Returns {A} a.
Arguments Throws {A} e.

Definition bind {A B} (m : outcome A) (k : A -> outcome B) : outcome B :=
  match m with
  | Returns a => k a
  | Throws e => Throws e
  end.

Lemma strict_equal_spec a b : strict_equal a b = true <-> a = b.
Proof.
  revert b; induction a as [|x a IH]; intros [|y b]; simpl; try easy.
  rewrite andb_true_iff, Z.eqb_eq, IH. split.
  - intros [-> ->]; reflexivity.
  - intros [= -> ->]; auto.
Qed.

Lemma strict_equal_refl a : strict_equal a a = true.
Proof. now apply strict_equal_spec. Qed.

Lemma strict_equal_neq a b : a <> b -> strict_equal a b = false.
Proof.
  intros H. destruct (strict_equal a b) eqn:E; [|reflexivity].
  now apply strict_equal_spec in E.
Qed.

End JS.

(** ** [src/actionTypes.js] *)

Module ActionTypes.
Import JS.

(** The names imported from [./actionConstants], in import order. *)
Inductive ActionConstant : Set :=
| REHYDRATE
| APP_ONLINE
| DEAD_QUEUE
| APP_ORIENTATION
| DEBUG_FLAG_TOGGLE
| ACCOUNT_SWITCH
| ACCOUNT_REMOVE
| LOGIN_SUCCESS
| LOGOUT
| DISMISS_SERVER_PUSH_SETUP_NOTICE
| GOT_PUSH_TOKEN
| UNACK_PUSH_TOKEN
| ACK_PUSH_TOKEN
| MESSAGE_FETCH_START
| MESSAGE_FETCH_ERROR
| MESSAGE_FETCH_COMPLETE
| REGISTER_START
| REGISTER_ABORT
| REGISTER_COMPLETE
| SET_GLOBAL_SETTINGS
| DRAFT_UPDATE
| PRESENCE_RESPONSE
| MESSAGE_SEND_START
| MESSAGE_SEND_COMPLETE
| DELETE_OUTBOX_MESSAGE
| TOGGLE_OUTBOX_SENDING
| EVENT_MESSAGE_DELETE
| EVENT_USER_GROUP_ADD
| EVENT_USER_GROUP_REMOVE
| EVENT_USER_GROUP_UPDATE
| EVENT_USER_GROUP_ADD_MEMBERS
| EVENT_USER_GROUP_REMOVE_MEMBERS
| EVENT_USER_STATUS_UPDATE
| EVENT_TYPING_START
| EVENT_TYPING_STOP
| EVENT_NEW_MESSAGE
| EVENT_REACTION_ADD
| EVENT_REACTION_REMOVE
| EVENT_PRESENCE
| EVENT_UPDATE_GLOBAL_NOTIFICATIONS_SETTINGS
| EVENT_UPDATE_MESSAGE
| EVENT_UPDATE_MESSAGE_FLAGS
| EVENT_USER_ADD
| CLEAR_TYPING
| EVENT_ALERT_WORDS
| INIT_TOPICS
| EVENT_MUTED_TOPICS
| EVENT_MUTED_USERS
| EVENT_REALM_FILTERS
| EVENT_USER_REMOVE
| EVENT_USER_UPDATE
| EVENT_REALM_EMOJI_UPDATE
| EVENT_UPDATE_DISPLAY_SETTINGS
| EVENT_SUBMESSAGE
| EVENT_SUBSCRIPTION
| EVENT
| DISMISS_SERVER_COMPAT_NOTICE.

(** The object types with a [type: typeof X] field, in declaration
    order. *)
Inductive ActionObjectType : Set :=
| RehydrateAction
| AppOnlineAction
| DeadQueueAction
| AppOrientationAction
| DebugFlagToggleAction
| DismissServerCompatNoticeAction
| AccountSwitchAction
| AccountRemoveAction
| LoginSuccessAction
| LogoutAction
| DismissServerPushSetupNoticeAction
| GotPushTokenAction
| UnackPushTokenAction
| AckPushTokenAction
| MessageFetchStartAction
| MessageFetchErrorAction
| MessageFetchCompleteAction
| RegisterStartAction
| RegisterAbortAction
| RegisterCompleteAction
| EventAlertWordsAction
| EventRealmFiltersAction
| EventUpdateGlobalNotificationsSettingsAction
| EventSubscriptionAddAction
| EventSubscriptionRemoveAction
| EventSubscriptionUpdateAction
| EventSubscriptionPeerAddAction
| EventSubscriptionPeerRemoveAction
| GenericEventAction
| EventNewMessageAction
| EventSubmessageAction
| EventMessageDeleteAction
| EventUpdateMessageAction
| EventReactionAddAction
| EventReactionRemoveAction
| EventPresenceAction
| EventTypingStartAction
| EventTypingStopAction
| EventUpdateMessageFlagsAction
| EventUserAddAction
| EventUserRemoveAction
| EventUserUpdateAction
| EventMutedTopicsAction
| EventMutedUsersAction
| EventUserGroupAddAction
| EventUserGroupRemoveAction
| EventUserGroupUpdateAction
| EventUserGroupAddMembersAction
| EventUserGroupRemoveMembersAction
| EventRealmEmojiUpdateAction
| EventUpdateDisplaySettingsAction
| EventUserStatusUpdateAction
| SetGlobalSettingsAction
| DraftUpdateAction
| PresenceResponseAction
| MessageSendStartAction
| MessageSendCompleteAction
| DeleteOutboxMessageAction
| ToggleOutboxSendingAction
| ClearTypingAction
| InitTopicsAction.

(** The constant each object type names in its [type] field. *)
Definition discriminant (t : ActionObjectType) : ActionConstant :=
  match t with
  | RehydrateAction => REHYDRATE
  | AppOnlineAction => APP_ONLINE
  | DeadQueueAction => DEAD_QUEUE
  | AppOrientationAction => APP_ORIENTATION
  | DebugFlagToggleAction => DEBUG_FLAG_TOGGLE
  | DismissServerCompatNoticeAction => DISMISS_SERVER_COMPAT_NOTICE
  | AccountSwitchAction => ACCOUNT_SWITCH
  | AccountRemoveAction => ACCOUNT_REMOVE
  | LoginSuccessAction => LOGIN_SUCCESS
  | LogoutAction => LOGOUT
  | DismissServerPushSetupNoticeAction => DISMISS_SERVER_PUSH_SETUP_NOTICE
  | GotPushTokenAction => GOT_PUSH_TOKEN
  | UnackPushTokenAction => UNACK_PUSH_TOKEN
  | AckPushTokenAction => ACK_PUSH_TOKEN
  | MessageFetchStartAction => MESSAGE_FETCH_START
  | MessageFetchErrorAction => MESSAGE_FETCH_ERROR
  | MessageFetchCompleteAction => MESSAGE_FETCH_COMPLETE
  | RegisterStartAction => REGISTER_START
  | RegisterAbortAction => REGISTER_ABORT
  | RegisterCompleteAction => REGISTER_COMPLETE
  | EventAlertWordsAction => EVENT_ALERT_WORDS
  | EventRealmFiltersAction => EVENT_REALM_FILTERS
  | EventUpdateGlobalNotificationsSettingsAction =>
      EVENT_UPDATE_GLOBAL_NOTIFICATIONS_SETTINGS
  | EventSubscriptionAddAction => EVENT_SUBSCRIPTION
  | EventSubscriptionRemoveAction => EVENT_SUBSCRIPTION
  | EventSubscriptionUpdateAction => EVENT_SUBSCRIPTION
  | EventSubscriptionPeerAddAction => EVENT_SUBSCRIPTION
  | EventSubscriptionPeerRemoveAction => EVENT_SUBSCRIPTION
  | GenericEventAction => EVENT
  | EventNewMessageAction => EVENT_NEW_MESSAGE
  | EventSubmessageAction => EVENT_SUBMESSAGE
  | EventMessageDeleteAction => EVENT_MESSAGE_DELETE
  | EventUpdateMessageAction => EVENT_UPDATE_MESSAGE
  | EventReactionAddAction => EVENT_REACTION_ADD
  | EventReactionRemoveAction => EVENT_REACTION_REMOVE
  | EventPresenceAction => EVENT_PRESENCE
  | EventTypingStartAction => EVENT_TYPING_START
  | EventTypingStopAction => EVENT_TYPING_STOP
  | EventUpdateMessageFlagsAction => EVENT_UPDATE_MESSAGE_FLAGS
  | EventUserAddAction => EVENT_USER_ADD
  | EventUserRemoveAction => EVENT_USER_REMOVE
  | EventUserUpdateAction => EVENT_USER_UPDATE
  | EventMutedTopicsAction => EVENT_MUTED_TOPICS
  | EventMutedUsersAction => EVENT_MUTED_USERS
  | EventUserGroupAddAction => EVENT_USER_GROUP_ADD
  | EventUserGroupRemoveAction => EVENT_USER_GROUP_REMOVE
  | EventUserGroupUpdateAction => EVENT_USER_GROUP_UPDATE
  | EventUserGroupAddMembersAction => EVENT_USER_GROUP_ADD_MEMBERS
  | EventUserGroupRemoveMembersAction => EVENT_USER_GROUP_REMOVE_MEMBERS
  | EventRealmEmojiUpdateAction => EVENT_REALM_EMOJI_UPDATE
  | EventUpdateDisplaySettingsAction => EVENT_UPDATE_DISPLAY_SETTINGS
  | EventUserStatusUpdateAction => EVENT_USER_STATUS_UPDATE
  | SetGlobalSettingsAction => SET_GLOBAL_SETTINGS
  | DraftUpdateAction => DRAFT_UPDATE
  | PresenceResponseAction => PRESENCE_RESPONSE
  | MessageSendStartAction => MESSAGE_SEND_START
  | MessageSendCompleteAction => MESSAGE_SEND_COMPLETE
  | DeleteOutboxMessageAction => DELETE_OUTBOX_MESSAGE
  | ToggleOutboxSendingAction => TOGGLE_OUTBOX_SENDING
  | ClearTypingAction => CLEAR_TYPING
  | InitTopicsAction => INIT_TOPICS
  end.

(** A type union is the list of its object types, in the order the
    source writes the alternatives. *)
Definition union := list ActionObjectType.

Definition EventReactionAction : union :=
  [EventReactionAddAction; EventReactionRemoveAction].

Definition EventSubscriptionAction : union :=
  [EventSubscriptionAddAction; EventSubscriptionRemoveAction;
   EventSubscriptionUpdateAction; EventSubscriptionPeerAddAction;
   EventSubscriptionPeerRemoveAction].

Definition EventTypingAction : union :=
  [EventTypingStartAction; EventTypingStopAction].

Definition EventUserAction : union :=
  [EventUserAddAction; EventUserRemoveAction; EventUserUpdateAction].

Definition EventUserGroupAction : union :=
  [EventUserGroupAddAction; EventUserGroupRemoveAction;
   EventUserGroupUpdateAction; EventUserGroupAddMembersAction;
   EventUserGroupRemoveMembersAction].

Definition EventAction : union :=
  [GenericEventAction;
   EventAlertWordsAction; EventMessageDeleteAction; EventMutedTopicsAction;
   EventMutedUsersAction; EventNewMessageAction; EventSubmessageAction;
   EventPresenceAction; EventRealmEmojiUpdateAction;
   EventRealmFiltersAction; EventUpdateGlobalNotificationsSettingsAction;
   EventUpdateDisplaySettingsAction; EventUpdateMessageAction;
   EventUpdateMessageFlagsAction]
  ++ EventReactionAction
  ++ EventSubscriptionAction
  ++ EventTypingAction
  ++ EventUserAction
  ++ EventUserGroupAction
  ++ [EventUserStatusUpdateAction].

Definition AccountAction : union :=
  [AccountSwitchAction; AccountRemoveAction; LoginSuccessAction;
   LogoutAction; DismissServerPushSetupNoticeAction].

Definition LoadingAction : union :=
  [DeadQueueAction; RegisterStartAction; RegisterAbortAction;
   RegisterCompleteAction].

Definition MessageAction : union :=
  [MessageFetchStartAction; MessageFetchErrorAction;
   MessageFetchCompleteAction].

Definition OutboxAction : union :=
  [MessageSendStartAction; MessageSendCompleteAction;
   DeleteOutboxMessageAction].

Definition PerAccountAction : union :=
  EventAction
  ++ LoadingAction
  ++ MessageAction
  ++ OutboxAction
  ++ [DraftUpdateAction; PresenceResponseAction; InitTopicsAction;
      ClearTypingAction;
      DismissServerCompatNoticeAction; DismissServerPushSetupNoticeAction;
      ToggleOutboxSendingAction].

Definition AllAccountsAction : union :=
  [RehydrateAction]
  ++ AccountAction
  ++ [AckPushTokenAction; UnackPushTokenAction].

Definition AccountIndependentAction : union :=
  [SetGlobalSettingsAction;
   AppOnlineAction; AppOrientationAction; GotPushTokenAction;
   DebugFlagToggleAction].

Definition Action : union :=
  PerAccountAction ++ AllAccountsAction ++ AccountIndependentAction.

Definition PerAccountApplicableAction : union :=
  PerAccountAction ++ AllAccountsAction.

Definition DispatchableWithoutAccountAction : union :=
  AllAccountsAction ++ AccountIndependentAction.

#[global] Instance ActionConstant_eq_dec : EqDecision ActionConstant.
Proof. solve_decision. Defined.

#[global] Instance ActionObjectType_eq_dec : EqDecision ActionObjectType.
Proof. solve_decision. Defined.

(** The discriminants of the members of a union. *)
Definition discriminants (u : union) : list ActionConstant :=
  map discriminant u.

(** *** Plain action objects and the effects of a call *)

(** An action object: its [type] property and the rest of it. *)
Record object (Payload : Type) : Type :=
  { type : jsstring; payload : Payload }.
Arguments type {Payload} _.
Arguments payload {Payload} _.

(** A call runs against the state of the program outside its argument
    and may change it. *)
Definition M (World A : Type) : Type := World -> outcome A * World.

Definition ret {World A} (a : A) : M World A := fun w => (Returns a, w).

Definition seq {World A B} (m : M World A) (k : A -> M World B)
  : M World B :=
  fun w =>
    match m w with
    | (Returns a, w') => k a w'
    | (Throws e, w') => (Throws e, w')
    end.

(** *** [isPerAccountApplicableAction] *)

(** The three bodies of the [switch]; [default] is the absence of one.
    The Flow casts at the head of each body, [(action: PerAccountAction)]
    and the like, do nothing at run time. *)
Inductive arm : Set :=
| PerAccountArm
| AllAccountsArm
| AccountIndependentArm.

(** The [case] labels in source order, each with the body it falls
    through to. *)
Definition cases : list (ActionConstant * arm) :=
  [(EVENT, PerAccountArm);
   (EVENT_ALERT_WORDS, PerAccountArm);
   (EVENT_MESSAGE_DELETE, PerAccountArm);
   (EVENT_MUTED_TOPICS, PerAccountArm);
   (EVENT_MUTED_USERS, PerAccountArm);
   (EVENT_NEW_MESSAGE, PerAccountArm);
   (EVENT_PRESENCE, PerAccountArm);
   (EVENT_REACTION_ADD, PerAccountArm);
   (EVENT_REACTION_REMOVE, PerAccountArm);
   (EVENT_REALM_EMOJI_UPDATE, PerAccountArm);
   (EVENT_REALM_FILTERS, PerAccountArm);
   (EVENT_SUBMESSAGE, PerAccountArm);
   (EVENT_SUBSCRIPTION, PerAccountArm);
   (EVENT_TYPING_START, PerAccountArm);
   (EVENT_TYPING_STOP, PerAccountArm);
   (EVENT_UPDATE_DISPLAY_SETTINGS, PerAccountArm);
   (EVENT_UPDATE_GLOBAL_NOTIFICATIONS_SETTINGS, PerAccountArm);
   (EVENT_UPDATE_MESSAGE, PerAccountArm);
   (EVENT_UPDATE_MESSAGE_FLAGS, PerAccountArm);
   (EVENT_USER_ADD, PerAccountArm);
   (EVENT_USER_GROUP_ADD, PerAccountArm);
   (EVENT_USER_GROUP_ADD_MEMBERS, PerAccountArm);
   (EVENT_USER_GROUP_REMOVE, PerAccountArm);
   (EVENT_USER_GROUP_REMOVE_MEMBERS, PerAccountArm);
   (EVENT_USER_GROUP_UPDATE, PerAccountArm);
   (EVENT_USER_REMOVE, PerAccountArm);
   (EVENT_USER_STATUS_UPDATE, PerAccountArm);
   (EVENT_USER_UPDATE, PerAccountArm);
   (DEAD_QUEUE, PerAccountArm);
   (REGISTER_START, PerAccountArm);
   (REGISTER_ABORT, PerAccountArm);
   (REGISTER_COMPLETE, PerAccountArm);
   (MESSAGE_FETCH_COMPLETE, PerAccountArm);
   (MESSAGE_FETCH_ERROR, PerAccountArm);
   (MESSAGE_FETCH_START, PerAccountArm);
   (MESSAGE_SEND_COMPLETE, PerAccountArm);
   (MESSAGE_SEND_START, PerAccountArm);
   (DELETE_OUTBOX_MESSAGE, PerAccountArm);
   (DRAFT_UPDATE, PerAccountArm);
   (PRESENCE_RESPONSE, PerAccountArm);
   (INIT_TOPICS, PerAccountArm);
   (CLEAR_TYPING, PerAccountArm);
   (DISMISS_SERVER_COMPAT_NOTICE, PerAccountArm);
   (DISMISS_SERVER_PUSH_SETUP_NOTICE, PerAccountArm);
   (TOGGLE_OUTBOX_SENDING, PerAccountArm);
   (REHYDRATE, AllAccountsArm);
   (ACCOUNT_SWITCH, AllAccountsArm);
   (ACCOUNT_REMOVE, AllAccountsArm);
   (LOGIN_SUCCESS, AllAccountsArm);
   (LOGOUT, AllAccountsArm);
   (ACK_PUSH_TOKEN, AllAccountsArm);
   (UNACK_PUSH_TOKEN, AllAccountsArm);
   (SET_GLOBAL_SETTINGS, AccountIndependentArm);
   (APP_ONLINE, AccountIndependentArm);
   (APP_ORIENTATION, AccountIndependentArm);
   (GOT_PUSH_TOKEN, AccountIndependentArm);
   (DEBUG_FLAG_TOGGLE, AccountIndependentArm)].

(** What each body returns. *)
Definition arm_result (r : arm) : bool :=
  match r with
  | PerAccountArm => true
  | AllAccountsArm => true
  | AccountIndependentArm => false
  end.

Section Classifier.
Context {World Payload : Type}.

(** The string each name of [./actionConstants] is bound to. *)
Variable value : ActionConstant -> jsstring.

(** [ensureUnreachable] of [./generics]. *)
Variable ensureUnreachable : object Payload -> M World unit.

(** [switch (s)]: the body of the first label that is [===] to [s]. *)
Fixpoint switch (s : jsstring) (cs : list (ActionConstant * arm))
  : option arm :=
  match cs with
  | [] => None
  | (c, r) :: cs' =>
      if strict_equal s (value c) then Some r else switch s cs'
  end.

Definition isPerAccountApplicableAction (action : object Payload)
  : M World bool :=
  match switch (type action) cases with
  | Some PerAccountArm => ret true
  | Some AllAccountsArm => ret true
  | Some AccountIndependentArm => ret false
  | None => seq (ensureUnreachable action) (fun _ => ret false)
  end.

End Classifier.

(** *** A table of constants and a static-only [ensureUnreachable] *)

(** Modelled from the spec: the values of [./actionConstants], which is
    not under [src/].  The spec writes discriminants in lower case with
    hyphens ([event-typing-start], [account-switch], [app-online]); each
    constant gets its name in that form. *)
Definition actionConstants (c : ActionConstant) : jsstring :=
  js match c with
     | REHYDRATE => "rehydrate"
     | APP_ONLINE => "app-online"
     | DEAD_QUEUE => "dead-queue"
     | APP_ORIENTATION => "app-orientation"
     | DEBUG_FLAG_TOGGLE => "debug-flag-toggle"
     | ACCOUNT_SWITCH => "account-switch"
     | ACCOUNT_REMOVE => "account-remove"
     | LOGIN_SUCCESS => "login-success"
     | LOGOUT => "logout"
     | DISMISS_SERVER_PUSH_SETUP_NOTICE => "dismiss-server-push-setup-notice"
     | GOT_PUSH_TOKEN => "got-push-token"
     | UNACK_PUSH_TOKEN => "unack-push-token"
     | ACK_PUSH_TOKEN => "ack-push-token"
     | MESSAGE_FETCH_START => "message-fetch-start"
     | MESSAGE_FETCH_ERROR => "message-fetch-error"
     | MESSAGE_FETCH_COMPLETE => "message-fetch-complete"
     | REGISTER_START => "register-start"
     | REGISTER_ABORT => "register-abort"
     | REGISTER_COMPLETE => "register-complete"
     | SET_GLOBAL_SETTINGS => "set-global-settings"
     | DRAFT_UPDATE => "draft-update"
     | PRESENCE_RESPONSE => "presence-response"
     | MESSAGE_SEND_START => "message-send-start"
     | MESSAGE_SEND_COMPLETE => "message-send-complete"
     | DELETE_OUTBOX_MESSAGE => "delete-outbox-message"
     | TOGGLE_OUTBOX_SENDING => "toggle-outbox-sending"
     | EVENT_MESSAGE_DELETE => "event-message-delete"
     | EVENT_USER_GROUP_ADD => "event-user-group-add"
     | EVENT_USER_GROUP_REMOVE => "event-user-group-remove"
     | EVENT_USER_GROUP_UPDATE => "event-user-group-update"
     | EVENT_USER_GROUP_ADD_MEMBERS => "event-user-group-add-members"
     | EVENT_USER_GROUP_REMOVE_MEMBERS => "event-user-group-remove-members"
     | EVENT_USER_STATUS_UPDATE => "event-user-status-update"
     | EVENT_TYPING_START => "event-typing-start"
     | EVENT_TYPING_STOP => "event-typing-stop"
     | EVENT_NEW_MESSAGE => "event-new-message"
     | EVENT_REACTION_ADD => "event-reaction-add"
     | EVENT_REACTION_REMOVE => "event-reaction-remove"
     | EVENT_PRESENCE => "event-presence"
     | EVENT_UPDATE_GLOBAL_NOTIFICATIONS_SETTINGS =>
         "event-update-global-notifications-settings"
     | EVENT_UPDATE_MESSAGE => "event-update-message"
     | EVENT_UPDATE_MESSAGE_FLAGS => "event-update-message-flags"
     | EVENT_USER_ADD => "event-user-add"
     | CLEAR_TYPING => "clear-typing"
     | EVENT_ALERT_WORDS => "event-alert-words"
     | INIT_TOPICS => "init-topics"
     | EVENT_MUTED_TOPICS => "event-muted-topics"
     | EVENT_MUTED_USERS => "event-muted-users"
     | EVENT_REALM_FILTERS => "event-realm-filters"
     | EVENT_USER_REMOVE => "event-user-remove"
     | EVENT_USER_UPDATE => "event-user-update"
     | EVENT_REALM_EMOJI_UPDATE => "event-realm-emoji-update"
     | EVENT_UPDATE_DISPLAY_SETTINGS => "event-update-display-settings"
     | EVENT_SUBMESSAGE => "event-submessage"
     | EVENT_SUBSCRIPTION => "event-subscription"
     | EVENT => "event"
     | DISMISS_SERVER_COMPAT_NOTICE => "dismiss-server-compat-notice"
     end.

(** An [ensureUnreachable] that only asserts statically: at run time it
    returns without touching anything.  Both call sites
    ([actionTypes.js] and [messageListElementHtml.js]) put a statement
    after the call, to run when it returns. *)
Definition ensureUnreachable_static {World Payload}
  (x : object Payload) : M World unit := ret tt.

(** *** Membership in the partitions *)

(** The three primary subtypes of [Action]. *)
Definition partitions : list union :=
  [PerAccountAction; AllAccountsAction; AccountIndependentAction].

Definition in_union (u : union) (c : ActionConstant) : bool :=
  bool_decide (c ∈ discriminants u).

(** In how many of the three primary subtypes a discriminant occurs. *)
Definition membership_count (c : ActionConstant) : nat :=
  length (filter (fun u => in_union u c = true) partitions).

(** The body the [switch] selects for a label, read off the label list
    by name rather than by string value. *)
Fixpoint label_arm (c : ActionConstant) (cs : list (ActionConstant * arm))
  : option arm :=
  match cs with
  | [] => None
  | (c', r) :: cs' => if decide (c = c') then Some r else label_arm c cs'
  end.

(** The unions each body of the [switch] casts [action] to. *)
Definition casts (r : arm) : list union :=
  match r with
  | PerAccountArm => [PerAccountAction; PerAccountApplicableAction]
  | AllAccountsArm => [AllAccountsAction; PerAccountApplicableAction]
  | AccountIndependentArm => [AccountIndependentAction]
  end.

(** *** Facts about the [switch] *)

Section SwitchFacts.
Variable value : ActionConstant -> jsstring.

Lemma switch_label_hit c cs :
  c ∈ map fst cs -> exists r, switch value (value c) cs = Some r.
Proof.
  induction cs as [|[c' r] cs IH]; simpl.
  - intros H. inversion H.
  - intros H. destruct (strict_equal (value c) (value c')) eqn:E.
    + eauto.
    + apply elem_of_cons in H as [->|H]; [|auto].
      now rewrite strict_equal_refl in E.
Qed.

Lemma switch_no_label s cs :
  (forall c, s <> value c) -> switch value s cs = None.
Proof.
  intros Hs. induction cs as [|[c r] cs IH]; simpl; [reflexivity|].
  now rewrite strict_equal_neq by apply Hs.
Qed.

Hypothesis value_inj : forall c c', value c = value c' -> c = c'.

Lemma switch_value c cs : switch value (value c) cs = label_arm c cs.
Proof.
  induction cs as [|[c' r] cs IH]; simpl; [reflexivity|].
  destruct (decide (c = c')) as [->|Hne].
  - now rewrite strict_equal_refl.
  - rewrite strict_equal_neq; [exact IH|]. intros H. now apply value_inj in H.
Qed.
End SwitchFacts.

Lemma every_constant_is_a_label c : c ∈ map fst cases.
Proof. apply (bool_decide_unpack _). destruct c; vm_compute; exact I. Qed.

Lemma every_constant_in_Action c : c ∈ discriminants Action.
Proof. apply (bool_decide_unpack _). destruct c; vm_compute; exact I. Qed.

Lemma label_arm_cases c :
  exists r,
    label_arm c cases = Some r
    /\ arm_result r
       = in_union PerAccountAction c || in_union AllAccountsAction c
    /\ negb (arm_result r) = in_union AccountIndependentAction c.
Proof. destruct c; eexists; vm_compute; repeat split. Qed.

Lemma actionConstants_inj c c' :
  actionConstants c = actionConstants c' -> c = c'.
Proof.
  intros H.
  assert (Hpos : forall d e : ActionConstant,
             bool_decide (d = e)
             = strict_equal (actionConstants d) (actionConstants e)).
  { intros d e; destruct d, e; vm_compute; reflexivity. }
  apply (bool_decide_unpack _). rewrite Hpos, H. now rewrite strict_equal_refl.
Qed.

(** *** The partition of the catalog *)

(** C1.  The claim asks that every discriminant of [Action] lies in
    exactly one of [PerAccountAction], [AllAccountsAction] and
    [AccountIndependentAction].  The unions do cover the catalog, but
    [DismissServerPushSetupNoticeAction] is listed twice: directly in
    [PerAccountAction] and, through [AccountAction], in
    [AllAccountsAction].  Its discriminant is counted in two primary
    subtypes; every other discriminant of the catalog is counted in
    exactly one. *)
Theorem partition_overlap_at_push_setup_notice :
  DismissServerPushSetupNoticeAction ∈ PerAccountAction
  /\ DismissServerPushSetupNoticeAction ∈ AllAccountsAction
  /\ DISMISS_SERVER_PUSH_SETUP_NOTICE ∈ discriminants PerAccountAction
  /\ DISMISS_SERVER_PUSH_SETUP_NOTICE ∈ discriminants AllAccountsAction
  /\ Forall
       (fun c =>
          membership_count c
          = if decide (c = DISMISS_SERVER_PUSH_SETUP_NOTICE)
            then 2%nat else 1%nat)
       (discriminants Action).
Proof.
  repeat split; apply (bool_decide_unpack _); vm_compute; exact I.
Qed.

(** *** The classifier on catalog actions *)

Section ClassifierFacts.
Context {World Payload : Type}.
Variable value : ActionConstant -> jsstring.
Variable ensureUnreachable : object Payload -> M World unit.

Local Abbreviation classify :=
  (isPerAccountApplicableAction value ensureUnreachable).

Lemma classify_switch_some (a : object Payload) r w :
  switch value (type a) cases = Some r ->
  classify a w = (Returns (arm_result r), w).
Proof.
  unfold isPerAccountApplicableAction. intros ->. now destruct r.
Qed.

Lemma classify_switch_none (a : object Payload) w :
  switch value (type a) cases = None ->
  classify a w = seq (ensureUnreachable a) (fun _ => ret false) w.
Proof. unfold isPerAccountApplicableAction. now intros ->. Qed.
End ClassifierFacts.

(** C2.  For an action whose [type] is the value of a catalog
    discriminant [c] (the values of the constants being pairwise
    distinct), [isPerAccountApplicableAction] returns [true] exactly when
    [c] is a discriminant of [PerAccountAction] or of
    [AllAccountsAction], and returns [false] exactly when [c] is a
    discriminant of [AccountIndependentAction]; it does return. *)
Theorem derivation_consistency {World Payload : Type}
    (value : ActionConstant -> jsstring)
    (value_inj : forall c c', value c = value c' -> c = c')
    (ensureUnreachable : object Payload -> M World unit)
    (a : object Payload) (c : ActionConstant) (w : World) :
  c ∈ discriminants Action ->
  type a = value c ->
  (exists b,
      isPerAccountApplicableAction value ensureUnreachable a w
      = (Returns b, w))
  /\ (isPerAccountApplicableAction value ensureUnreachable a w
      = (Returns true, w)
      <-> c ∈ discriminants PerAccountAction
          \/ c ∈ discriminants AllAccountsAction)
  /\ (isPerAccountApplicableAction value ensureUnreachable a w
      = (Returns false, w)
      <-> c ∈ discriminants AccountIndependentAction).
Proof.
  intros _ Htype.
  destruct (label_arm_cases c) as (r & Hr & Htrue & Hfalse).
  rewrite (classify_switch_some value ensureUnreachable a r w)
    by (rewrite Htype, switch_value by exact value_inj; exact Hr).
  assert (Hin : forall u, in_union u c = true <-> c ∈ discriminants u)
    by (intros u; apply bool_decide_eq_true).
  rewrite <- !Hin, <- orb_true_iff, <- Htrue, <- Hfalse.
  clear Hin Htrue Hfalse Hr.
  split; [eauto|].
  destruct (arm_result r); simpl; (split; split; intros H);
    first [reflexivity | discriminate H | inversion H].
Qed.

Lemma derivation_consistency_witness :
  let a := {| type := js "account-switch"; payload := tt |} in
  let run :=
    isPerAccountApplicableAction (World := nat)
      actionConstants ensureUnreachable_static a 7%nat in
  (exists b, run = (Returns b, 7%nat))
  /\ (run = (Returns true, 7%nat)
      <-> ACCOUNT_SWITCH ∈ discriminants PerAccountAction
          \/ ACCOUNT_SWITCH ∈ discriminants AllAccountsAction)
  /\ (run = (Returns false, 7%nat)
      <-> ACCOUNT_SWITCH ∈ discriminants AccountIndependentAction).
Proof.
  apply (derivation_consistency actionConstants actionConstants_inj
           ensureUnreachable_static _ ACCOUNT_SWITCH 7%nat).
  - apply (bool_decide_unpack _). vm_compute. exact I.
  - reflexivity.
Defined.

(** C3.  Every action whose [type] is the value of a catalog
    discriminant is matched by a [case] label, so the [default] branch
    and its [ensureUnreachable] call are not reached, and the call
    returns a boolean, the one of the matched body. *)
Theorem classifier_total {World Payload : Type}
    (value : ActionConstant -> jsstring)
    (ensureUnreachable : object Payload -> M World unit)
    (a : object Payload) (c : ActionConstant) :
  c ∈ discriminants Action ->
  type a = value c ->
  exists r,
    switch value (type a) cases = Some r
    /\ forall w,
        isPerAccountApplicableAction value ensureUnreachable a w
        = (Returns (arm_result r), w).
Proof.
  intros _ Htype.
  destruct (switch_label_hit value c cases (every_constant_is_a_label c))
    as [r Hr].
  exists r. rewrite Htype. split; [exact Hr|].
  intros w. apply classify_switch_some. now rewrite Htype.
Qed.

Lemma classifier_total_witness :
  let a := {| type := js "event-new-message"; payload := 3%nat |} in
  exists r,
    switch actionConstants (type a) cases = Some r
    /\ forall w : nat,
        isPerAccountApplicableAction
          actionConstants ensureUnreachable_static a w
        = (Returns (arm_result r), w).
Proof.
  apply (classifier_total actionConstants ensureUnreachable_static
           _ EVENT_NEW_MESSAGE).
  - apply (bool_decide_unpack _). vm_compute. exact I.
  - reflexivity.
Defined.

(** C4.  With pairwise distinct constant values: [EVENT_TYPING_START] is
    a discriminant of [PerAccountAction], an action of that type takes the
    [PerAccountAction] body and the classifier returns [true];
    [ACCOUNT_SWITCH] is one of [AllAccountsAction], takes the
    [AllAccountsAction] body and gives [true]; [APP_ONLINE] is one of
    [AccountIndependentAction], takes the [AccountIndependentAction] body
    and gives [false]. *)
Theorem scenario_classifications {World Payload : Type}
    (value : ActionConstant -> jsstring)
    (value_inj : forall c c', value c = value c' -> c = c')
    (ensureUnreachable : object Payload -> M World unit)
    (p : Payload) (w : World) :
  let action c := {| type := value c; payload := p |} in
  (EVENT_TYPING_START ∈ discriminants PerAccountAction
   /\ switch value (type (action EVENT_TYPING_START)) cases
      = Some PerAccountArm
   /\ isPerAccountApplicableAction value ensureUnreachable
        (action EVENT_TYPING_START) w = (Returns true, w))
  /\ (ACCOUNT_SWITCH ∈ discriminants AllAccountsAction
      /\ switch value (type (action ACCOUNT_SWITCH)) cases
         = Some AllAccountsArm
      /\ isPerAccountApplicableAction value ensureUnreachable
           (action ACCOUNT_SWITCH) w = (Returns true, w))
  /\ (APP_ONLINE ∈ discriminants AccountIndependentAction
      /\ switch value (type (action APP_ONLINE)) cases
         = Some AccountIndependentArm
      /\ isPerAccountApplicableAction value ensureUnreachable
           (action APP_ONLINE) w = (Returns false, w)).
Proof.
  intros action.
  assert (H : forall c r, label_arm c cases = Some r ->
              switch value (type (action c)) cases = Some r
              /\ isPerAccountApplicableAction value ensureUnreachable
                   (action c) w = (Returns (arm_result r), w)).
  { intros c r Hr.
    assert (Hs : switch value (type (action c)) cases = Some r)
      by (change (type (action c)) with (value c);
        rewrite switch_value by exact value_inj; exact Hr).
    split; [exact Hs|]. now apply classify_switch_some. }
  assert (Hin : forall u c, in_union u c = true -> c ∈ discriminants u)
    by (intros u c; apply bool_decide_eq_true).
  split; [|split]; (split; [now apply Hin|]).
  - exact (H EVENT_TYPING_START PerAccountArm eq_refl).
  - exact (H ACCOUNT_SWITCH AllAccountsArm eq_refl).
  - exact (H APP_ONLINE AccountIndependentArm eq_refl).
Qed.

Lemma scenario_classifications_witness :
  let action c := {| type := actionConstants c; payload := tt |} in
  let classify :=
    isPerAccountApplicableAction (World := unit)
      actionConstants ensureUnreachable_static in
  (EVENT_TYPING_START ∈ discriminants PerAccountAction
   /\ switch actionConstants (js "event-typing-start") cases
      = Some PerAccountArm
   /\ classify (action EVENT_TYPING_START) tt = (Returns true, tt))
  /\ (ACCOUNT_SWITCH ∈ discriminants AllAccountsAction
      /\ switch actionConstants (js "account-switch") cases
         = Some AllAccountsArm
      /\ classify (action ACCOUNT_SWITCH) tt = (Returns true, tt))
  /\ (APP_ONLINE ∈ discriminants AccountIndependentAction
      /\ switch actionConstants (js "app-online") cases
         = Some AccountIndependentArm
      /\ classify (action APP_ONLINE) tt = (Returns false, tt)).
Proof.
  exact (scenario_classifications actionConstants actionConstants_inj
           ensureUnreachable_static tt tt).
Defined.

(** *** Actions outside the catalog *)

Lemma made_up_event_not_in_catalog c :
  js "made-up-future-event" <> actionConstants c.
Proof. destruct c; vm_compute; discriminate. Qed.

(** C5, as the code has it.  For an action whose [type] is the value of no
    catalog constant, no [case] label matches; the classifier runs
    [ensureUnreachable(action)] and then [return false].  So it returns
    [false] whenever [ensureUnreachable] returns, and throws only what
    [ensureUnreachable] throws: the classifier has no assertion, log or
    refusal of its own. *)
Theorem unknown_discriminant_default {World Payload : Type}
    (value : ActionConstant -> jsstring)
    (ensureUnreachable : object Payload -> M World unit)
    (a : object Payload) (w : World) :
  (forall c, type a <> value c) ->
  switch value (type a) cases = None
  /\ isPerAccountApplicableAction value ensureUnreachable a w
     = seq (ensureUnreachable a) (fun _ => ret false) w
  /\ (forall w',
         ensureUnreachable a w = (Returns tt, w') ->
         isPerAccountApplicableAction value ensureUnreachable a w
         = (Returns false, w'))
  /\ (forall e w',
         ensureUnreachable a w = (Throws e, w') ->
         isPerAccountApplicableAction value ensureUnreachable a w
         = (Throws e, w')).
Proof.
  intros Hout.
  pose proof (switch_no_label value (type a) cases Hout) as Hnone.
  pose proof (classify_switch_none value ensureUnreachable a w Hnone) as Hrun.
  repeat split; try assumption.
  - intros w' Hret. rewrite Hrun. unfold seq. now rewrite Hret.
  - intros e w' Hthrow. rewrite Hrun. unfold seq. now rewrite Hthrow.
Qed.

Lemma unknown_discriminant_default_witness :
  let a := {| type := js "made-up-future-event"; payload := tt |} in
  let run := isPerAccountApplicableAction (World := nat) actionConstants in
  switch actionConstants (type a) cases = None
  /\ run ensureUnreachable_static a 5%nat
     = seq (ensureUnreachable_static a) (fun _ => ret false) 5%nat
  /\ (forall w',
         ensureUnreachable_static a 5%nat = (Returns tt, w') ->
         run ensureUnreachable_static a 5%nat = (Returns false, w'))
  /\ (forall e w',
         ensureUnreachable_static a 5%nat = (Throws e, w') ->
         run ensureUnreachable_static a 5%nat = (Throws e, w')).
Proof.
  apply (unknown_discriminant_default actionConstants
           ensureUnreachable_static
           {| type := js "made-up-future-event"; payload := tt |} 5%nat).
  intros c. simpl. apply made_up_event_not_in_catalog.
Defined.

(** C5, as the claim states it, fails: with an [ensureUnreachable] that is
    a static assertion only, the action [{ type: 'made-up-future-event' }]
    is outside the catalog, yet the classifier throws nothing and answers
    [false], the answer it gives for [APP_ONLINE]. *)
Lemma unknown_discriminant_not_fatal :
  let a := {| type := js "made-up-future-event"; payload := tt |} in
  let run :=
    isPerAccountApplicableAction (World := unit)
      actionConstants ensureUnreachable_static in
  (forall c, type a <> actionConstants c)
  /\ run a tt = (Returns false, tt)
  /\ run a tt = run {| type := actionConstants APP_ONLINE; payload := tt |} tt
  /\ ~ (exists e w', run a tt = (Throws e, w')).
Proof.
  repeat split.
  - intros c. apply made_up_event_not_in_catalog.
  - intros (e & w' & H). vm_compute in H. discriminate H.
Qed.

(** *** Purity *)

(** C7.  On an action whose [type] is the value of a catalog constant the
    classifier's answer is a function of that [type] alone: it is the same
    for every action with that [type], whatever the rest of the object and
    whatever the state of the program; and the state is handed back
    unchanged.  In particular two calls on equal actions agree. *)
Theorem classifier_pure {World Payload : Type}
    (value : ActionConstant -> jsstring)
    (ensureUnreachable : object Payload -> M World unit)
    (a a' : object Payload) (c : ActionConstant) (w w' : World) :
  type a = value c ->
  type a' = type a ->
  exists b,
    isPerAccountApplicableAction value ensureUnreachable a w
    = (Returns b, w)
    /\ isPerAccountApplicableAction value ensureUnreachable a' w'
       = (Returns b, w').
Proof.
  intros Htype Hsame.
  destruct (switch_label_hit value c cases (every_constant_is_a_label c))
    as [r Hr].
  exists (arm_result r). split; apply classify_switch_some.
  - now rewrite Htype.
  - now rewrite Hsame, Htype.
Qed.

Lemma classifier_pure_witness :
  let a := {| type := js "draft-update"; payload := 1%nat |} in
  let a' := {| type := js "draft-update"; payload := 2%nat |} in
  exists b,
    isPerAccountApplicableAction (World := bool)
      actionConstants ensureUnreachable_static a true = (Returns b, true)
    /\ isPerAccountApplicableAction (World := bool)
         actionConstants ensureUnreachable_static a' false
       = (Returns b, false).
Proof.
  apply (classifier_pure actionConstants ensureUnreachable_static
           _ _ DRAFT_UPDATE true false); reflexivity.
Defined.

(** *** The switch against the unions *)


(** X1. No discriminant, and no object type, is both in
    [PerAccountApplicableAction] and in [AccountIndependentAction]. *)
Theorem applicable_and_independent_disjoint :
  Forall (fun c => c ∉ discriminants AccountIndependentAction)
    (discriminants PerAccountApplicableAction)
  /\ Forall (fun t => t ∉ AccountIndependentAction)
       PerAccountApplicableAction.
Proof. split; apply (bool_decide_unpack _); vm_compute; exact I. Qed.

(** X2. The [switch] and the type unions agree: every [case] label is a
    discriminant of each union that its body casts the action to, no label
    is written twice, and the labels are the discriminants of [Action]. *)
Theorem switch_labels_match_unions :
  Forall (fun label =>
            Forall (fun u => fst label ∈ discriminants u) (casts (snd label)))
    cases
  /\ NoDup (map fst cases)
  /\ Forall (fun c => c ∈ map fst cases) (discriminants Action)
  /\ Forall (fun c => c ∈ discriminants Action) (map fst cases).
Proof. repeat split; apply (bool_decide_unpack _); vm_compute; exact I. Qed.

(** X3. [true] is returned only for an action whose [type] is the value
    of a discriminant of [PerAccountApplicableAction], whatever the values
    of the constants and whatever [ensureUnreachable] does; in particular
    never for an action outside the catalog. *)
Theorem true_only_for_applicable {World Payload : Type}
    (value : ActionConstant -> jsstring)
    (ensureUnreachable : object Payload -> M World unit)
    (a : object Payload) (w w' : World) :
  isPerAccountApplicableAction value ensureUnreachable a w
  = (Returns true, w') ->
  w' = w
  /\ exists c,
      type a = value c /\ c ∈ discriminants PerAccountApplicableAction.
Proof.
  unfold isPerAccountApplicableAction.
  assert (Hswitch : forall cs r,
             switch value (type a) cs = Some r ->
             exists c, type a = value c /\ (c, r) ∈ cs).
  { induction cs as [|[c r'] cs IH]; intros r; simpl; [discriminate|].
    destruct (strict_equal (type a) (value c)) eqn:E.
    - intros [= <-]. apply strict_equal_spec in E. exists c.
      split; [exact E | now left].
    - intros Hr. destruct (IH r Hr) as (c' & Hc' & Hin).
      exists c'. split; [exact Hc' | now right]. }
  assert (Htrue : forall c r, (c, r) ∈ cases -> arm_result r = true ->
                    c ∈ discriminants PerAccountApplicableAction).
  { intros c r Hin Hr.
    assert (Hall : Forall (fun label =>
                             arm_result (snd label) = true ->
                             fst label ∈ discriminants
                                          PerAccountApplicableAction)
                     cases)
      by (apply (bool_decide_unpack _); vm_compute; exact I).
    rewrite Forall_forall in Hall. exact (Hall (c, r) Hin Hr). }
  destruct (switch value (type a) cases) as [r|] eqn:Hr.
  - destruct (Hswitch _ _ Hr) as (c & Hc & Hin).
    destruct r; unfold ret; intros [= <-]; try discriminate;
      (split; [reflexivity|]); exists c; split; auto;
      eapply Htrue; eauto.
  - unfold seq, ret. destruct (ensureUnreachable a w) as [[[]|e] w0];
      discriminate.
Qed.

Lemma true_only_for_applicable_witness :
  let a := {| type := js "logout"; payload := tt |} in
  isPerAccountApplicableAction (World := nat)
    actionConstants ensureUnreachable_static a 3%nat = (Returns true, 3%nat)
  /\ 3%nat = 3%nat
  /\ exists c,
      type a = actionConstants c
      /\ c ∈ discriminants PerAccountApplicableAction.
Proof.
  split; [reflexivity|].
  apply (true_only_for_applicable actionConstants ensureUnreachable_static
           {| type := js "logout"; payload := tt |} 3%nat 3%nat).
  reflexivity.
Defined.

End ActionTypes.


(** ** [src/utils/internalLinks.js] *)

Module InternalLinks.
Import JS.

(** *** Strings and arrays *)

(** Does [s] begin with [p]? *)
Fixpoint starts_with (p s : jsstring) : bool :=
  match p, s with
  | [], _ => true
  | x :: p', y :: s' => (x =? y) && starts_with p' s'
  | _ :: _, [] => false
  end.

(** [s.includes(p)] *)
Fixpoint includes (s p : jsstring) : bool :=
  starts_with p s
  || match s with
     | [] => false
     | _ :: s' => includes s' p
     end.

(** The scan of [s.split(sep)] for a non-empty [sep]: [cur] is the piece
    being built, [skip] the number of code units of a separator found
    just before that are still to be passed over. *)
Fixpoint split_from (sep cur : jsstring) (skip : nat) (s : jsstring)
  : list jsstring :=
  match s with
  | [] => [cur]
  | c :: s' =>
      match skip with
      | S k => split_from sep cur k s'
      | O =>
          if starts_with sep s
          then cur :: split_from sep [] (length sep - 1) s'
          else split_from sep (cur ++ [c]) O s'
      end
  end.

(** [s.split(sep)]; the empty separator splits between code units. *)
Definition split (s sep : jsstring) : list jsstring :=
  match sep with
  | [] => map (fun c => [c]) s
  | _ :: _ => split_from sep [] O s
  end.

(** [a.pop()]: the last element, [undefined] on the empty array. *)
Fixpoint pop {A} (a : list A) : option A :=
  match a with
  | [] => None
  | [x] => Some x
  | _ :: a' => pop a'
  end.

(** [a[i]] for an integer [i]: [undefined] out of range. *)
Definition at_index {A} (a : list A) (i : Z) : option A :=
  if i <? 0 then None else nth_error a (Z.to_nat i).

(** [a[i] === lit] for a string literal. *)
Definition at_index_is (a : list jsstring) (i : Z) (lit : jsstring) : bool :=
  match at_index a i with
  | Some x => strict_equal x lit
  | None => false
  end.

(** [a.lastIndexOf(x)]: the greatest index holding [x], or -1. *)
Fixpoint lastIndexOf (a : list jsstring) (x : jsstring) : Z :=
  match a with
  | [] => -1
  | y :: a' =>
      let r := lastIndexOf a' x in
      if 0 <=? r then r + 1
      else if strict_equal y x then 0 else -1
  end.

(** *** Regular expressions of the file *)

(** A code unit matches an ASCII pattern character under the [i] flag when
    it is ASCII and has the same upper case. *)
Definition upper (c : code_unit) : code_unit :=
  if (97 <=? c) && (c <=? 122) then c - 32 else c.

Definition matches_ignoring_case (p c : code_unit) : bool :=
  (c <? 128) && (upper c =? upper p).

Fixpoint starts_with_ignoring_case (p s : jsstring) : bool :=
  match p, s with
  | [], _ => true
  | x :: p', y :: s' =>
      matches_ignoring_case x y && starts_with_ignoring_case p' s'
  | _ :: _, [] => false
  end.

(** [/^#narrow\//i.test(s)] *)
Definition test_narrow_hash (s : jsstring) : bool :=
  starts_with_ignoring_case (js "#narrow/") s.

(** [/^(private|starred|mentioned)/i.test(x)]; [undefined] is tested as
    the string ["undefined"]. *)
Definition test_special_operand (x : option jsstring) : bool :=
  let s := match x with Some s => s | None => js "undefined" end in
  starts_with_ignoring_case (js "private") s
  || starts_with_ignoring_case (js "starred") s
  || starts_with_ignoring_case (js "mentioned") s.

(** *** URL objects *)

Record URL : Type :=
  { href : jsstring;
    origin : jsstring;
    pathname : jsstring;
    search : jsstring;
    hash : jsstring }.

(** [realm.toString()] *)
Definition toString (u : URL) : jsstring := href u.

Inductive LinkType : Set :=
| external
| home
| pm
| topic
| stream
| special.

(** [getPathsFromUrl]; calling [split] on the [undefined] that [pop]
    gives for an empty array is a [TypeError]. *)
Definition getPathsFromUrl (url : jsstring) (realm : URL)
  : outcome (list jsstring) :=
  match pop (split url (toString realm)) with
  | None => Throws TypeError
  | Some afterRealm =>
      match pop (split afterRealm (js "#narrow/")) with
      | None => Throws TypeError
      | Some afterNarrow =>
          let paths := split afterNarrow (js "/") in
          if (0 <? Z.of_nat (length paths))
             && at_index_is paths (Z.of_nat (length paths) - 1) []
          then Returns (removelast paths)
          else Returns paths
      end
  end.

Section Links.
(** [new URL(url, base)] of the platform. *)
Variable URL_new : jsstring -> URL -> outcome URL.

(** JavaScript numbers: numeric literals and [parseInt]. *)
Variable number : Type.
Variable literal : Z -> number.
Variable parseInt : option jsstring -> number -> number.

Definition isInternalLink (url : jsstring) (realm : URL) : outcome bool :=
  bind (URL_new url realm) (fun resolved =>
    Returns (strict_equal (origin resolved) (origin realm)
             && strict_equal (pathname resolved) (js "/")
             && strict_equal (search resolved) []
             && test_narrow_hash (hash resolved))).

Definition isMessageLink (url : jsstring) (realm : URL) : outcome bool :=
  bind (isInternalLink url realm) (fun internal =>
    Returns (internal && includes url (js "near"))).

Definition getLinkType (url : jsstring) (realm : URL) : outcome LinkType :=
  bind (isInternalLink url realm) (fun internal =>
    if negb internal then Returns external
    else
      bind (getPathsFromUrl url realm) (fun paths =>
        let len := Z.of_nat (length paths) in
        if ((len =? 2) && at_index_is paths 0 (js "pm-with"))
           || ((len =? 4) && at_index_is paths 0 (js "pm-with")
               && at_index_is paths 2 (js "near"))
        then Returns pm
        else if ((len =? 4) || (len =? 6))
                && at_index_is paths 0 (js "stream")
                && (at_index_is paths 2 (js "subject")
                    || at_index_is paths 2 (js "topic"))
        then Returns topic
        else if (len =? 2) && at_index_is paths 0 (js "stream")
        then Returns stream
        else if (len =? 2) && at_index_is paths 0 (js "is")
                && test_special_operand (at_index paths 1)
        then Returns special
        else Returns home)).

Definition getMessageIdFromLink (url : jsstring) (realm : URL)
  : outcome number :=
  bind (getPathsFromUrl url realm) (fun paths =>
    bind (isMessageLink url realm) (fun isMessage =>
      if isMessage
      then
        Returns (parseInt (at_index paths (lastIndexOf paths (js "near") + 1))
                   (literal 10))
      else Returns (literal 0))).

End Links.

(** *** UTF-16 and UTF-8 *)

Definition is_leading_surrogate (c : Z) : bool :=
  (0xD800 <=? c) && (c <=? 0xDBFF).

Definition is_trailing_surrogate (c : Z) : bool :=
  (0xDC00 <=? c) && (c <=? 0xDFFF).

Definition UTF16SurrogatePairToCodePoint (lead trail : Z) : Z :=
  (lead - 0xD800) * 0x400 + (trail - 0xDC00) + 0x10000.

Definition UTF16EncodeCodePoint (cp : Z) : jsstring :=
  if cp <=? 0xFFFF then [cp]
  else [(cp - 0x10000) / 0x400 + 0xD800; (cp - 0x10000) mod 0x400 + 0xDC00].

(** [s.isWellFormed()]: no surrogate stands alone. *)
Fixpoint isWellFormed (s : jsstring) : bool :=
  match s with
  | [] => true
  | c :: rest =>
      if is_leading_surrogate c then
        match rest with
        | [] => false
        | d :: rest' => is_trailing_surrogate d && isWellFormed rest'
        end
      else if is_trailing_surrogate c then false
      else isWellFormed rest
  end.

(** The octets of the UTF-8 encoding of a code point; shifts and masks
    are written as division and remainder by powers of two. *)
Definition utf8_octets (cp : Z) : list Z :=
  if cp <? 0x80 then [cp]
  else if cp <? 0x800 then [0xC0 + cp / 0x40; 0x80 + cp mod 0x40]
  else if cp <? 0x10000 then
    [0xE0 + cp / 0x1000; 0x80 + (cp / 0x40) mod 0x40; 0x80 + cp mod 0x40]
  else
    [0xF0 + cp / 0x40000; 0x80 + (cp / 0x1000) mod 0x40;
     0x80 + (cp / 0x40) mod 0x40; 0x80 + cp mod 0x40].

Definition is_continuation_octet (b : Z) : bool :=
  (0x80 <=? b) && (b <=? 0xBF).

(** The code point of a multi-octet sequence, when the sequence is a
    valid UTF-8 encoding of one: continuation octets in range, shortest
    form, no surrogate, at most 0x10FFFF. *)
Definition utf8_code_point (octets : list Z) : option Z :=
  match octets with
  | [b0; b1] =>
      let v := (b0 - 0xC0) * 0x40 + (b1 - 0x80) in
      if is_continuation_octet b1 && (0x80 <=? v) then Some v else None
  | [b0; b1; b2] =>
      let v := (b0 - 0xE0) * 0x1000 + (b1 - 0x80) * 0x40 + (b2 - 0x80) in
      if is_continuation_octet b1 && is_continuation_octet b2
         && (0x800 <=? v) && negb ((0xD800 <=? v) && (v <=? 0xDFFF))
      then Some v else None
  | [b0; b1; b2; b3] =>
      let v := (b0 - 0xF0) * 0x40000 + (b1 - 0x80) * 0x1000
               + (b2 - 0x80) * 0x40 + (b3 - 0x80) in
      if is_continuation_octet b1 && is_continuation_octet b2
         && is_continuation_octet b3
         && (0x10000 <=? v) && (v <=? 0x10FFFF)
      then Some v else None
  | _ => None
  end.

(** The number of leading 1 bits of an octet (5 stands for five or
    more). *)
Definition leading_ones (b : Z) : nat :=
  if b <? 0x80 then 0
  else if b <? 0xC0 then 1
  else if b <? 0xE0 then 2
  else if b <? 0xF0 then 3
  else if b <? 0xF8 then 4
  else 5.

(** *** Percent escapes *)

(** The upper-case hexadecimal digit for [d] in [0, 15]. *)
Definition hex_digit (d : Z) : code_unit :=
  if d <? 10 then 48 + d else 55 + d.

Definition hex_value (c : code_unit) : option Z :=
  if (48 <=? c) && (c <=? 57) then Some (c - 48)
  else if (65 <=? c) && (c <=? 70) then Some (c - 55)
  else if (97 <=? c) && (c <=? 102) then Some (c - 87)
  else None.

Definition ParseHexOctet (h1 h2 : code_unit) : option Z :=
  match hex_value h1, hex_value h2 with
  | Some a, Some b => Some (16 * a + b)
  | _, _ => None
  end.

(** ["%XX"] for one octet. *)
Definition escape (octet : Z) : jsstring :=
  [37; hex_digit (octet / 16); hex_digit (octet mod 16)].

Definition escape_octets (octets : list Z) : jsstring :=
  flat_map escape octets.

(** The characters [encodeURIComponent] leaves alone. *)
Definition uriUnescaped : jsstring :=
  js "ABCDEFGHIJKLMNOPQRSTUVWXYZabcdefghijklmnopqrstuvwxyz0123456789"
  ++ js "-_.!~*'()".

Definition is_unescaped (c : code_unit) : bool :=
  existsb (Z.eqb c) uriUnescaped.

(** [encodeURIComponent(string)], after Encode of ECMA-262: an unescaped
    code unit is copied; otherwise the code point at the position is
    taken, an unpaired surrogate is a [URIError], and the octets of its
    UTF-8 encoding are written as escapes. *)
Fixpoint encodeURIComponent (string : jsstring) : outcome jsstring :=
  match string with
  | [] => Returns []
  | C :: rest =>
      if is_unescaped C then
        bind (encodeURIComponent rest) (fun R => Returns (C :: R))
      else if is_trailing_surrogate C then Throws URIError
      else if is_leading_surrogate C then
        match rest with
        | [] => Throws URIError
        | second :: rest' =>
            if is_trailing_surrogate second then
              bind (encodeURIComponent rest') (fun R =>
                Returns
                  (escape_octets
                     (utf8_octets (UTF16SurrogatePairToCodePoint C second))
                   ++ R))
            else Throws URIError
        end
      else
        bind (encodeURIComponent rest) (fun R =>
          Returns (escape_octets (utf8_octets C) ++ R))
  end.

(** A continuation escape ["%XX"] and its octet. *)
Definition continuation (p h1 h2 : code_unit) : option Z :=
  if p =? 37 then ParseHexOctet h1 h2 else None.

(** The end of one multi-octet step of Decode: the octets must be valid
    UTF-8, and their code point is appended as UTF-16. *)
Definition append_code_point (octets : list Z) (rest : outcome jsstring)
  : outcome jsstring :=
  match utf8_code_point octets with
  | Some V => bind rest (fun R => Returns (UTF16EncodeCodePoint V ++ R))
  | None => Throws URIError
  end.

(** [decodeURIComponent(string)], after Decode of ECMA-262 with an empty
    set of preserved escapes. *)
Fixpoint decodeURIComponent (string : jsstring) : outcome jsstring :=
  match string with
  | [] => Returns []
  | C :: rest =>
      if negb (C =? 37) then
        bind (decodeURIComponent rest) (fun R => Returns (C :: R))
      else
        match rest with
        | h1 :: h2 :: rest1 =>
            match ParseHexOctet h1 h2 with
            | None => Throws URIError
            | Some B =>
                match leading_ones B with
                | 0%nat =>
                    bind (decodeURIComponent rest1) (fun R =>
                      Returns (B :: R))
                | 2%nat =>
                    match rest1 with
                    | p1 :: x1 :: y1 :: rest2 =>
                        match continuation p1 x1 y1 with
                        | Some c1 =>
                            append_code_point [B; c1]
                              (decodeURIComponent rest2)
                        | None => Throws URIError
                        end
                    | _ => Throws URIError
                    end
                | 3%nat =>
                    match rest1 with
                    | p1 :: x1 :: y1 :: p2 :: x2 :: y2 :: rest2 =>
                        match continuation p1 x1 y1,
                              continuation p2 x2 y2 with
                        | Some c1, Some c2 =>
                            append_code_point [B; c1; c2]
                              (decodeURIComponent rest2)
                        | _, _ => Throws URIError
                        end
                    | _ => Throws URIError
                    end
                | 4%nat =>
                    match rest1 with
                    | p1 :: x1 :: y1 :: p2 :: x2 :: y2
                      :: p3 :: x3 :: y3 :: rest2 =>
                        match continuation p1 x1 y1,
                              continuation p2 x2 y2,
                              continuation p3 x3 y3 with
                        | Some c1, Some c2, Some c3 =>
                            append_code_point [B; c1; c2; c3]
                              (decodeURIComponent rest2)
                        | _, _, _ => Throws URIError
                        end
                    | _ => Throws URIError
                    end
                | _ => Throws URIError
                end
            end
        | _ => Throws URIError
        end
  end.

(** *** Dot-encoding *)

Definition hashReplacements : list (jsstring * jsstring) :=
  [(js "%", js ".");
   (js "(", js ".28");
   (js ")", js ".29");
   (js ".", js ".2E")].

(** [m.get(key)] on a [Map] built from a list of entries. *)
Fixpoint Map_get (m : list (jsstring * jsstring)) (key : jsstring)
  : option jsstring :=
  match m with
  | [] => None
  | (k, x) :: m' =>
      match Map_get m' key with
      | Some y => Some y
      | None => if strict_equal k key then Some x else None
      end
  end.

(** [s.replace(/[%().]/g, matched => hashReplacements.get(matched) ?? '')] *)
Definition replace_hash_characters (s : jsstring) : jsstring :=
  flat_map
    (fun c =>
       if existsb (Z.eqb c) (js "%().")
       then match Map_get hashReplacements [c] with
            | Some r => r
            | None => []
            end
       else [c])
    s.

Definition encodeHashComponent (string : jsstring) : outcome jsstring :=
  bind (encodeURIComponent string) (fun encoded =>
    Returns (replace_hash_characters encoded)).

(** [s.replace(/\./g, '%')] *)
Definition replace_dots (s : jsstring) : jsstring :=
  map (fun c => if c =? 46 then 37 else c) s.

(** What [addBreadcrumb] is handed. *)
Record Breadcrumb : Type :=
  { level : jsstring;
    type : jsstring;
    message : jsstring;
    data_input : jsstring }.

(** [decodeHashComponent]: the outcome, and the breadcrumbs it leaves.  A
    failure of [decodeURIComponent] is recorded and thrown again. *)
Definition decodeHashComponent (string : jsstring)
  : outcome jsstring * list Breadcrumb :=
  match decodeURIComponent (replace_dots string) with
  | Returns decoded => (Returns decoded, [])
  | Throws err =>
      (Throws err,
       [{| level := js "info";
           type := js "decoding";
           message := js "decodeHashComponent error";
           data_input := string |}])
  end.

(** *** Helpers for the statements below *)

(** The input of [decodeURIComponent] inside [decodeHashComponent] for an
    output [x] of [encodeURIComponent]: both replacements in a row. *)
Definition dotted (x : jsstring) : jsstring :=
  replace_dots (replace_hash_characters x).

(** A Unicode scalar value: a code point that is not a surrogate. *)
Definition is_scalar (cp : Z) : Prop :=
  0 <= cp <= 0x10FFFF /\ ~ (0xD800 <= cp <= 0xDFFF).

(** A stand-in for the platform's URL parser, enough for the examples: a
    reference that starts with ['#'] is a fragment on the realm's own page,
    any other string is taken as the address of another site. *)
Definition URL_new_fragment (url : jsstring) (base : URL) : outcome URL :=
  match url with
  | 35 :: _ =>
      Returns {| href := origin base ++ js "/" ++ url;
                 origin := origin base;
                 pathname := js "/";
                 search := [];
                 hash := url |}
  | _ =>
      Returns {| href := url;
                 origin := url;
                 pathname := js "/";
                 search := [];
                 hash := [] |}
  end.

(** A [parseInt] for the examples: numbers are [Some] integer or [None]
    for [NaN]; the leading run of decimal digits is read. *)
Fixpoint decimal_prefix (acc : option Z) (s : jsstring) : option Z :=
  match s with
  | [] => acc
  | c :: s' =>
      if (48 <=? c) && (c <=? 57)
      then decimal_prefix
             (Some (10 * match acc with Some a => a | None => 0 end + (c - 48)))
             s'
      else acc
  end.

Definition parseInt_decimal (x : option jsstring) (radix : option Z)
  : option Z :=
  match x with
  | Some s => decimal_prefix None s
  | None => None
  end.

Definition example_realm : URL :=
  {| href := js "https://example.com/";
     origin := js "https://example.com";
     pathname := js "/";
     search := [];
     hash := [] |}.


(** *** Operands of narrow links *)

(** [s.replace(pattern, replacement)] for a string [pattern]: the first
    occurrence only.  (The replacement strings of this file have no [$].) *)
Fixpoint replace_first (s pattern replacement : jsstring) : jsstring :=
  match s with
  | [] => if starts_with pattern [] then replacement else []
  | c :: s' =>
      if starts_with pattern s
      then replacement ++ skipn (length pattern) s
      else c :: replace_first s' pattern replacement
  end.

Definition is_digit (c : code_unit) : bool := (48 <=? c) && (c <=? 57).

(** The characters [.] does not match in a regular expression. *)
Definition is_line_terminator (c : code_unit) : bool :=
  (c =? 0x0A) || (c =? 0x0D) || (c =? 0x2028) || (c =? 0x2029).

(** The longest run of [\d] at the head of a string, and what follows. *)
Fixpoint digit_prefix (s : jsstring) : jsstring * jsstring :=
  match s with
  | [] => ([], [])
  | c :: s' =>
      if is_digit c
      then let (digits, rest) := digit_prefix s' in (c :: digits, rest)
      else ([], s)
  end.

(** Group 1 of the match of the regular expression of
    [parseStreamOperand] on [operand], when there is a match: one digit
    or more, then either the end or a ['-'] followed by characters other
    than line terminators up to the end. *)
Definition exec_stream_id (operand : jsstring) : option jsstring :=
  let (digits, rest) := digit_prefix operand in
  match digits, rest with
  | [], _ => None
  | _ :: _, [] => Some digits
  | _ :: _, c :: tail =>
      if (c =? 45) && forallb (fun d => negb (is_line_terminator d)) tail
      then Some digits
      else None
  end.

(** The properties of a [Stream] the file reads. *)
Record Stream (number : Type) : Type :=
  { name : jsstring; stream_id : number }.
Arguments name {number} _.
Arguments stream_id {number} _.

(** A result together with the breadcrumbs left on the way. *)
Definition logged (A : Type) : Type := outcome A * list Breadcrumb.

Definition then_logged {A B} (m : logged A) (k : A -> logged B)
  : logged B :=
  match m with
  | (Returns a, log) => let (r, log') := k a in (r, log ++ log')
  | (Throws e, log) => (Throws e, log)
  end.

Section Narrows.
(** JavaScript numbers, up to the equality [Map] uses for keys. *)
Context {number : Type} `{Countable number}.
Variable literal : Z -> number.
Variable parseInt : option jsstring -> number -> number.
(** [`${n}`] *)
Variable Number_toString : number -> jsstring.
Variable URL_new : jsstring -> URL -> outcome URL.

(** [makeUserId] of [../api/idTypes]; the narrow constructors of
    [./narrow] and [pmKeyRecipientsFromIds] of [./recipient]. *)
Context {UserId PmKeyRecipients Narrow : Type}.
Variable makeUserId : number -> UserId.
Variable pmKeyRecipientsFromIds :
  list UserId -> UserId -> outcome PmKeyRecipients.
Variable pmNarrowFromRecipients : PmKeyRecipients -> outcome Narrow.
Variable topicNarrow : jsstring -> jsstring -> outcome Narrow.
Variable streamNarrow : jsstring -> outcome Narrow.
Variable specialNarrow : option jsstring -> outcome Narrow.

(** [parseStreamOperand]: the pair [[name, id]], or [null]. *)
Definition parseStreamOperand (operand : jsstring)
    (streamsById : gmap number (Stream number))
    (streamsByName : gmap jsstring (Stream number))
  : logged (option (jsstring * number)) :=
  let byId :=
    match exec_stream_id operand with
    | Some digits =>
        let streamId := parseInt (Some digits) (literal 10) in
        match streamsById !! streamId with
        | Some found => Some (name found, streamId)
        | None => None
        end
    | None => None
    end in
  match byId with
  | Some nameAndId => (Returns (Some nameAndId), [])
  | None =>
      then_logged (decodeHashComponent operand) (fun streamName =>
        match streamsByName !! streamName with
        | Some found => (Returns (Some (streamName, stream_id found)), [])
        | None => (Returns None, [])
        end)
  end.

Definition parseTopicOperand (operand : jsstring) : logged jsstring :=
  decodeHashComponent operand.

(** [parsePmOperand]; [split] on an [undefined] operand is a
    [TypeError]. *)
Definition parsePmOperand (operand : option jsstring)
  : outcome (list UserId) :=
  match operand with
  | None => Throws TypeError
  | Some operand =>
      match at_index (split operand (js "-")) 0 with
      | None => Throws TypeError
      | Some first =>
          Returns
            (map (fun s => makeUserId (parseInt (Some s) (literal 10)))
               (split first (js ",")))
      end
  end.

(** [a && f(a)] for a result that is [null] or an array. *)
Definition and_then {A B} (a : option A) (f : A -> logged B)
  : logged (option B) :=
  match a with
  | None => (Returns None, [])
  | Some x =>
      then_logged (f x) (fun y => (Returns (Some y), []))
  end.

(** [getNarrowFromLink].  Where [paths[1]] or [paths[3]] is read as a
    stream or topic operand the link type guarantees that it is a string
    (see [operands_defined] below); the alternative is a [TypeError]. *)
Definition getNarrowFromLink (url : jsstring) (realm : URL)
    (streamsById : gmap number (Stream number))
    (streamsByName : gmap jsstring (Stream number))
    (ownUserId : UserId) : logged (option Narrow) :=
  then_logged (getLinkType URL_new url realm, []) (fun type =>
  then_logged (getPathsFromUrl url realm, []) (fun paths =>
    match type with
    | pm =>
        (bind (parsePmOperand (at_index paths 1)) (fun ids =>
           bind (pmKeyRecipientsFromIds ids ownUserId) (fun key =>
             bind (pmNarrowFromRecipients key) (fun narrow =>
               Returns (Some narrow)))),
         [])
    | topic =>
        match at_index paths 1, at_index paths 3 with
        | Some streamOperand, Some topicOperand =>
            then_logged
              (parseStreamOperand streamOperand streamsById streamsByName)
              (fun streamNameAndId =>
                 and_then streamNameAndId (fun nameAndId =>
                   then_logged (parseTopicOperand topicOperand)
                     (fun topicName =>
                        (topicNarrow (fst nameAndId) topicName, []))))
        | _, _ => (Throws TypeError, [])
        end
    | stream =>
        match at_index paths 1 with
        | Some streamOperand =>
            then_logged
              (parseStreamOperand streamOperand streamsById streamsByName)
              (fun streamNameAndId =>
                 and_then streamNameAndId (fun nameAndId =>
                   (streamNarrow (fst nameAndId), [])))
        | None => (Throws TypeError, [])
        end
    | special =>
        match specialNarrow (at_index paths 1) with
        | Returns narrow => (Returns (Some narrow), [])
        | Throws _ => (Returns None, [])
        end
    | _ => (Returns None, [])
    end)).

(** The [encodedStreamSlug] of [getStreamURL]. *)
Definition encodedStreamSlug (streamId : number)
    (streamsById : gmap number (Stream number)) : outcome jsstring :=
  let prettyStreamName :=
    match streamsById !! streamId with
    | Some found => replace_first (name found) (js " ") (js "-")
    | None => js "unknown"
    end in
  encodeHashComponent (Number_toString streamId ++ js "-" ++ prettyStreamName).

Definition getStreamURL (realm : URL) (streamId : number)
    (streamsById : gmap number (Stream number)) : outcome URL :=
  bind (encodedStreamSlug streamId streamsById) (fun slug =>
    URL_new (js "#narrow/stream/" ++ slug) realm).

End Narrows.

(** Numbers for the examples: [Some] integer, or [None] for [NaN], and
    the decimal digits of a small non-negative integer. *)
Definition digit_string_upto_999 (n : Z) : jsstring :=
  if n <? 10 then [48 + n]
  else if n <? 100 then [48 + n / 10; 48 + n mod 10]
  else [48 + n / 100; 48 + (n / 10) mod 10; 48 + n mod 10].

Definition toString_decimal (n : option Z) : jsstring :=
  match n with
  | Some z => if (0 <=? z) && (z <? 1000) then digit_string_upto_999 z
              else js "Infinity"
  | None => js "NaN"
  end.

Definition example_streamsById : gmap (option Z) (Stream (option Z)) :=
  {[ Some 42 := {| name := js "mobile team (dev)"; stream_id := Some 42 |};
     Some 7 := {| name := js "jest"; stream_id := Some 7 |} ]}.

Definition example_streamsByName : gmap jsstring (Stream (option Z)) :=
  {[ js "mobile team (dev)" :=
       {| name := js "mobile team (dev)"; stream_id := Some 42 |};
     js "jest" := {| name := js "jest"; stream_id := Some 7 |} ]}.

(** What the link types say about the path components. *)
Definition operands_defined (t : LinkType) (paths : list jsstring) : Prop :=
  match t with
  | pm =>
      (length paths = 2%nat \/ length paths = 4%nat)
      /\ at_index paths 0 = Some (js "pm-with")
      /\ exists operand, at_index paths 1 = Some operand
  | topic =>
      (length paths = 4%nat \/ length paths = 6%nat)
      /\ at_index paths 0 = Some (js "stream")
      /\ (exists operand, at_index paths 1 = Some operand)
      /\ (at_index paths 2 = Some (js "subject")
          \/ at_index paths 2 = Some (js "topic"))
      /\ exists operand, at_index paths 3 = Some operand
  | stream =>
      length paths = 2%nat
      /\ at_index paths 0 = Some (js "stream")
      /\ exists operand, at_index paths 1 = Some operand
  | special =>
      length paths = 2%nat
      /\ at_index paths 0 = Some (js "is")
      /\ exists operand, at_index paths 1 = Some operand
  | home => True
  | external => True
  end.

(** The characters a dot-encoded component is made of: those
    [encodeURIComponent] leaves alone, less the two parentheses. *)
Definition is_hash_safe (c : code_unit) : bool :=
  is_unescaped c && negb ((c =? 40) || (c =? 41)).

(** Is the code unit a hexadecimal digit? *)
Definition is_hex_digit (c : code_unit) : bool :=
  match hex_value c with
  | Some _ => true
  | None => false
  end.

(** Every ['%'] of the string is followed by two hexadecimal digits. *)
Fixpoint every_percent_escapes (s : jsstring) : bool :=
  match s with
  | [] => true
  | c :: rest =>
      (if c =? 37
       then match rest with
            | h1 :: h2 :: _ => is_hex_digit h1 && is_hex_digit h2
            | _ => false
            end
       else true)
      && every_percent_escapes rest
  end.

(** Narrows for the examples. *)
Inductive ExampleNarrow : Type :=
| PmNarrow (ids : list (option Z))
| TopicNarrow (streamName topicName : jsstring)
| StreamNarrow (streamName : jsstring)
| SpecialNarrow (operand : jsstring).

Definition example_specialNarrow (operand : option jsstring)
  : outcome ExampleNarrow :=
  match operand with
  | Some s =>
      if strict_equal s (js "starred") || strict_equal s (js "mentioned")
         || strict_equal s (js "private")
      then Returns (SpecialNarrow s)
      else Throws (Error (js "Narrow: unknown special operand"))
  | None => Throws (Error (js "Narrow: unknown special operand"))
  end.

Definition example_getNarrowFromLink (url : string)
  : logged (option ExampleNarrow) :=
  getNarrowFromLink Some parseInt_decimal URL_new_fragment
    (fun n => n)
    (fun ids _ => Returns ids)
    (fun key => Returns (PmNarrow key))
    (fun s t => Returns (TopicNarrow s t))
    (fun s => Returns (StreamNarrow s))
    example_specialNarrow
    (js url) example_realm example_streamsById example_streamsByName None.


(** *** Examples of the dot-encoding *)

Example encodeHashComponent_text :
  encodeHashComponent (js "(some) text.%_~/")
  = Returns (js ".28some.29.20text.2E.25_~.2F").
Proof. vm_compute. reflexivity. Qed.

Example decodeHashComponent_text :
  decodeHashComponent (js ".28some.29.20text.2E.25_~.2F")
  = (Returns (js "(some) text.%_~/"), []).
Proof. vm_compute. reflexivity. Qed.

(** U+1F600 followed by U+00E9 and U+20AC. *)
Example encodeHashComponent_astral :
  encodeHashComponent [0xD83D; 0xDE00; 0xE9; 0x20AC]
  = Returns (js ".F0.9F.98.80.C3.A9.E2.82.AC")
  /\ decodeHashComponent (js ".F0.9F.98.80.C3.A9.E2.82.AC")
     = (Returns [0xD83D; 0xDE00; 0xE9; 0x20AC], []).
Proof. vm_compute. split; reflexivity. Qed.

(** *** Percent escapes and UTF-8 *)

Lemma hex_value_digit d : 0 <= d < 16 -> hex_value (hex_digit d) = Some d.
Proof.
  intros Hd. unfold hex_value, hex_digit.
  destruct (d <? 10) eqn:E; [apply Z.ltb_lt in E | apply Z.ltb_ge in E].
  - replace ((48 <=? 48 + d) && (48 + d <=? 57)) with true
      by (symmetry; apply andb_true_iff; split; apply Z.leb_le; lia).
    f_equal; lia.
  - replace ((48 <=? 55 + d) && (55 + d <=? 57)) with false
      by (symmetry; apply andb_false_iff; right; apply Z.leb_gt; lia).
    replace ((65 <=? 55 + d) && (55 + d <=? 70)) with true
      by (symmetry; apply andb_true_iff; split; apply Z.leb_le; lia).
    f_equal; lia.
Qed.

Lemma ParseHexOctet_escape o :
  0 <= o < 256 ->
  ParseHexOctet (hex_digit (o / 16)) (hex_digit (o mod 16)) = Some o.
Proof.
  intros Ho. unfold ParseHexOctet.
  rewrite !hex_value_digit by (Z.div_mod_to_equations; lia).
  f_equal. Z.div_mod_to_equations; lia.
Qed.

Lemma hex_digit_range d : 0 <= d < 16 -> 48 <= hex_digit d <= 70.
Proof. intros Hd. unfold hex_digit. destruct (d <? 10) eqn:E; lia. Qed.


Lemma dotted_app x y : dotted (x ++ y) = dotted x ++ dotted y.
Proof.
  unfold dotted, replace_dots, replace_hash_characters.
  now rewrite flat_map_app, map_app.
Qed.

Lemma dotted_plain c t :
  48 <= c <= 70 -> dotted (c :: t) = c :: dotted t.
Proof.
  intros Hc. unfold dotted, replace_dots, replace_hash_characters.
  cbn [flat_map].
  replace (existsb (Z.eqb c) (js "%().")) with false.
  - cbn [app map]. replace (c =? 46) with false; [reflexivity|].
    symmetry; apply Z.eqb_neq; lia.
  - symmetry. cbn. rewrite !orb_false_iff.
    repeat split; try apply Z.eqb_neq; lia.
Qed.

Lemma dotted_escape o t :
  0 <= o < 256 -> dotted (escape o ++ t) = escape o ++ dotted t.
Proof.
  intros Ho. unfold escape. cbn [app].
  change (dotted (37 :: ?x)) with (37 :: dotted x).
  pose proof (hex_digit_range (o / 16)) as H1.
  pose proof (hex_digit_range (o mod 16)) as H2.
  rewrite !dotted_plain; [reflexivity| |];
    [apply H2 | apply H1]; Z.div_mod_to_equations; lia.
Qed.


(** Turn the boolean comparisons among the hypotheses into inequalities. *)
Ltac bool_to_Z :=
  repeat match goal with
    | H : (_ <? _) = true |- _ => apply Z.ltb_lt in H
    | H : (_ <? _) = false |- _ => apply Z.ltb_ge in H
    | H : (_ <=? _) = true |- _ => apply Z.leb_le in H
    | H : (_ <=? _) = false |- _ => apply Z.leb_gt in H
    | H : (_ && _) = true |- _ => apply andb_true_iff in H; destruct H
    end.

(** Settle the comparisons in the goal that the context decides. *)
Ltac settle lemma := symmetry; apply lemma; Z.div_mod_to_equations; lia.

Ltac decide_tests :=
  repeat match goal with
    | |- context [?a <? ?b] =>
        first [ replace (a <? b) with true by settle Z.ltb_lt
              | replace (a <? b) with false by settle Z.ltb_ge ]
    | |- context [?a <=? ?b] =>
        first [ replace (a <=? b) with true by settle Z.leb_le
              | replace (a <=? b) with false by settle Z.leb_gt ]
    end.

Lemma utf8_octets_are_octets cp :
  0 <= cp <= 0x10FFFF -> Forall (fun o => 0 <= o < 256) (utf8_octets cp).
Proof.
  intros Hcp. unfold utf8_octets.
  destruct (cp <? 0x80) eqn:E1; [|destruct (cp <? 0x800) eqn:E2;
    [|destruct (cp <? 0x10000) eqn:E3]]; bool_to_Z;
    repeat constructor; Z.div_mod_to_equations; lia.
Qed.

Lemma utf8_code_point_octets cp :
  is_scalar cp -> 0x80 <= cp ->
  utf8_code_point (utf8_octets cp) = Some cp.
Proof.
  intros [Hcp Hsur] Hmulti. unfold utf8_octets.
  destruct (cp <? 0x80) eqn:E1; [bool_to_Z; lia|].
  destruct (cp <? 0x800) eqn:E2; [|destruct (cp <? 0x10000) eqn:E3];
    bool_to_Z; unfold utf8_code_point, is_continuation_octet.
  - replace ((0xC0 + cp / 0x40 - 0xC0) * 0x40 + (0x80 + cp mod 0x40 - 0x80))
      with cp by (Z.div_mod_to_equations; lia).
    decide_tests. reflexivity.
  - replace ((0xE0 + cp / 0x1000 - 0xE0) * 0x1000
             + (0x80 + (cp / 0x40) mod 0x40 - 0x80) * 0x40
             + (0x80 + cp mod 0x40 - 0x80))
      with cp by (Z.div_mod_to_equations; lia).
    decide_tests.
    replace ((0xD800 <=? cp) && (cp <=? 0xDFFF)) with false; [reflexivity|].
    symmetry. apply andb_false_iff.
    destruct (Z.leb_spec 0xD800 cp); [right; apply Z.leb_gt; lia | now left].
  - replace ((0xF0 + cp / 0x40000 - 0xF0) * 0x40000
             + (0x80 + (cp / 0x1000) mod 0x40 - 0x80) * 0x1000
             + (0x80 + (cp / 0x40) mod 0x40 - 0x80) * 0x40
             + (0x80 + cp mod 0x40 - 0x80))
      with cp by (Z.div_mod_to_equations; lia).
    decide_tests. reflexivity.
Qed.

Lemma UTF16Encode_pair lead trail :
  is_leading_surrogate lead = true ->
  is_trailing_surrogate trail = true ->
  UTF16EncodeCodePoint (UTF16SurrogatePairToCodePoint lead trail)
  = [lead; trail]
  /\ is_scalar (UTF16SurrogatePairToCodePoint lead trail)
  /\ 0x10000 <= UTF16SurrogatePairToCodePoint lead trail.
Proof.
  unfold is_leading_surrogate, is_trailing_surrogate,
    UTF16EncodeCodePoint, UTF16SurrogatePairToCodePoint, is_scalar.
  intros Hl Ht. bool_to_Z.
  split; [|lia].
  decide_tests. f_equal; [|f_equal]; Z.div_mod_to_equations; lia.
Qed.

Lemma decode_literal c t :
  c <> 37 ->
  decodeURIComponent (c :: t)
  = bind (decodeURIComponent t) (fun R => Returns (c :: R)).
Proof.
  intros Hc. cbn [decodeURIComponent].
  replace (c =? 37) with false by (symmetry; now apply Z.eqb_neq).
  reflexivity.
Qed.

Lemma decode_escape h1 h2 t :
  decodeURIComponent (37 :: h1 :: h2 :: t)
  = match ParseHexOctet h1 h2 with
    | None => Throws URIError
    | Some B =>
        match leading_ones B with
        | 0%nat => bind (decodeURIComponent t) (fun R => Returns (B :: R))
        | 2%nat =>
            match t with
            | p1 :: x1 :: y1 :: rest2 =>
                match continuation p1 x1 y1 with
                | Some c1 =>
                    append_code_point [B; c1] (decodeURIComponent rest2)
                | None => Throws URIError
                end
            | _ => Throws URIError
            end
        | 3%nat =>
            match t with
            | p1 :: x1 :: y1 :: p2 :: x2 :: y2 :: rest2 =>
                match continuation p1 x1 y1, continuation p2 x2 y2 with
                | Some c1, Some c2 =>
                    append_code_point [B; c1; c2] (decodeURIComponent rest2)
                | _, _ => Throws URIError
                end
            | _ => Throws URIError
            end
        | 4%nat =>
            match t with
            | p1 :: x1 :: y1 :: p2 :: x2 :: y2 :: p3 :: x3 :: y3 :: rest2 =>
                match continuation p1 x1 y1, continuation p2 x2 y2,
                      continuation p3 x3 y3 with
                | Some c1, Some c2, Some c3 =>
                    append_code_point [B; c1; c2; c3]
                      (decodeURIComponent rest2)
                | _, _, _ => Throws URIError
                end
            | _ => Throws URIError
            end
        | _ => Throws URIError
        end
    end.
Proof. reflexivity. Qed.

Lemma continuation_escape o :
  0 <= o < 256 ->
  continuation 37 (hex_digit (o / 16)) (hex_digit (o mod 16)) = Some o.
Proof. intros Ho. unfold continuation. cbn. now apply ParseHexOctet_escape. Qed.

Lemma decode_code_point cp t :
  is_scalar cp ->
  decodeURIComponent (escape_octets (utf8_octets cp) ++ t)
  = bind (decodeURIComponent t)
      (fun R => Returns (UTF16EncodeCodePoint cp ++ R)).
Proof.
  intros Hs.
  pose proof (utf8_octets_are_octets cp (proj1 Hs)) as Hoct.
  destruct (Z.ltb_spec cp 0x80) as [Hascii|Hmulti].
  - unfold utf8_octets, UTF16EncodeCodePoint in *. destruct Hs as [Hcp _].
    revert Hoct. decide_tests. intros Hoct.
    cbn [escape_octets flat_map escape app].
    rewrite decode_escape, ParseHexOctet_escape by lia.
    unfold leading_ones. decide_tests. reflexivity.
  - pose proof (utf8_code_point_octets cp Hs Hmulti) as Hv.
    destruct Hs as [Hcp Hsur].
    unfold utf8_octets in *.
    destruct (cp <? 0x80) eqn:E1; [bool_to_Z; lia|].
    destruct (cp <? 0x800) eqn:E2; [|destruct (cp <? 0x10000) eqn:E3];
      bool_to_Z;
      repeat match goal with
        | H : Forall _ (_ :: _) |- _ => inversion H; subst; clear H
        end;
      cbn [escape_octets flat_map escape app];
      rewrite decode_escape, ParseHexOctet_escape by assumption;
      unfold leading_ones; decide_tests;
      rewrite !continuation_escape by assumption;
      unfold append_code_point; rewrite Hv; reflexivity.
Qed.

Lemma unescaped_round C t :
  is_unescaped C = true ->
  C < 128
  /\ decodeURIComponent (dotted (C :: t))
     = bind (decodeURIComponent (dotted t)) (fun R => Returns (C :: R)).
Proof.
  unfold is_unescaped. intros H.
  apply existsb_exists in H as (x & Hin & Heq).
  apply Z.eqb_eq in Heq. subst x.
  vm_compute in Hin.
  repeat (destruct Hin as [<-|Hin]; [split; [lia | reflexivity]|]).
  contradiction.
Qed.

Lemma surrogates_exclusive c :
  is_leading_surrogate c = true -> is_trailing_surrogate c = false.
Proof.
  unfold is_leading_surrogate, is_trailing_surrogate. intros H. bool_to_Z.
  apply andb_false_iff. left. apply Z.leb_gt. lia.
Qed.

Lemma not_surrogate_scalar c :
  is_code_unit c ->
  is_leading_surrogate c = false ->
  is_trailing_surrogate c = false ->
  is_scalar c.
Proof.
  unfold is_code_unit, is_leading_surrogate, is_trailing_surrogate, is_scalar.
  intros Hc Hl Ht. split; [lia|]. intros Hs.
  apply andb_false_iff in Hl, Ht.
  destruct Hl as [Hl|Hl], Ht as [Ht|Ht]; bool_to_Z; lia.
Qed.

Lemma UTF16Encode_unit c :
  is_code_unit c -> UTF16EncodeCodePoint c = [c].
Proof.
  unfold is_code_unit, UTF16EncodeCodePoint. intros Hc. now decide_tests.
Qed.

Lemma dotted_escape_octets os t :
  Forall (fun o => 0 <= o < 256) os ->
  dotted (escape_octets os ++ t) = escape_octets os ++ dotted t.
Proof.
  induction 1 as [|o os Ho _ IH]; [reflexivity|].
  cbn [escape_octets flat_map]. fold (escape_octets os).
  now rewrite <- !app_assoc, dotted_escape, IH.
Qed.

Lemma round_code_point cp t :
  is_scalar cp ->
  decodeURIComponent (dotted (escape_octets (utf8_octets cp) ++ t))
  = bind (decodeURIComponent (dotted t))
      (fun R => Returns (UTF16EncodeCodePoint cp ++ R)).
Proof.
  intros Hs.
  rewrite dotted_escape_octets by (apply utf8_octets_are_octets, Hs).
  now apply decode_code_point.
Qed.

Lemma encode_then_decode n :
  forall s,
    (length s <= n)%nat ->
    Forall is_code_unit s ->
    isWellFormed s = true ->
    exists e,
      encodeURIComponent s = Returns e
      /\ decodeURIComponent (dotted e) = Returns s.
Proof.
  induction n as [|n IH]; intros [|C rest] Hlen Hunits Hwf;
    try (exists []; split; reflexivity); [simpl in Hlen; lia|].
  inversion Hunits as [|? ? HC Hrest]; subst.
  cbn [encodeURIComponent]. cbn [isWellFormed] in Hwf.
  destruct (is_unescaped C) eqn:Hun.
  - destruct (unescaped_round C [] Hun) as [Hascii _].
    assert (Hl : is_leading_surrogate C = false)
      by (apply andb_false_iff; left; apply Z.leb_gt; lia).
    assert (Ht : is_trailing_surrogate C = false)
      by (apply andb_false_iff; left; apply Z.leb_gt; lia).
    rewrite Hl, Ht in Hwf.
    destruct (IH rest) as (e & He & Hd); [simpl in Hlen; lia|auto..|].
    exists (C :: e). rewrite He. split; [reflexivity|].
    rewrite (proj2 (unescaped_round C e Hun)), Hd. reflexivity.
  - destruct (is_leading_surrogate C) eqn:Hl.
    + rewrite (surrogates_exclusive C Hl).
      destruct rest as [|second rest']; [discriminate|].
      apply andb_true_iff in Hwf as [Ht Hwf]. rewrite Ht.
      inversion Hrest; subst.
      destruct (IH rest') as (e & He & Hd); [simpl in Hlen; lia|auto..|].
      destruct (UTF16Encode_pair C second Hl Ht) as (Hpair & Hscalar & _).
      eexists. rewrite He. split; [reflexivity|].
      rewrite round_code_point, Hd, Hpair by assumption. reflexivity.
    + destruct (is_trailing_surrogate C) eqn:Ht; [discriminate|].
      destruct (IH rest) as (e & He & Hd); [simpl in Hlen; lia|auto..|].
      eexists. rewrite He. split; [reflexivity|].
      rewrite round_code_point, Hd, UTF16Encode_unit
        by auto using not_surrogate_scalar.
      reflexivity.
Qed.

Lemma encode_ill_formed n :
  forall s,
    (length s <= n)%nat ->
    isWellFormed s = false ->
    encodeURIComponent s = Throws URIError.
Proof.
  induction n as [|n IH]; intros [|C rest] Hlen Hwf;
    try discriminate; [simpl in Hlen; lia|].
  cbn [encodeURIComponent]. cbn [isWellFormed] in Hwf.
  destruct (is_unescaped C) eqn:Hun.
  - destruct (unescaped_round C [] Hun) as [Hascii _].
    assert (Hl : is_leading_surrogate C = false)
      by (apply andb_false_iff; left; apply Z.leb_gt; lia).
    assert (Ht : is_trailing_surrogate C = false)
      by (apply andb_false_iff; left; apply Z.leb_gt; lia).
    rewrite Hl, Ht in Hwf.
    rewrite IH by (simpl in Hlen; auto; lia). reflexivity.
  - destruct (is_leading_surrogate C) eqn:Hl.
    + rewrite (surrogates_exclusive C Hl).
      destruct rest as [|second rest']; [reflexivity|].
      destruct (is_trailing_surrogate second); [|reflexivity].
      rewrite IH by (simpl in *; auto; lia). reflexivity.
    + destruct (is_trailing_surrogate C); [reflexivity|].
      rewrite IH by (simpl in Hlen; auto; lia). reflexivity.
Qed.

(** *** The dot-encoding round trip *)

(** C8, as the code has it.  For every string of UTF-16 code units in
    which no surrogate stands alone, [encodeHashComponent] returns, and
    [decodeHashComponent] of what it returns gives the string back and
    leaves no breadcrumb. *)
Theorem hash_component_round_trip (s : jsstring) :
  Forall is_code_unit s ->
  isWellFormed s = true ->
  exists encoded,
    encodeHashComponent s = Returns encoded
    /\ decodeHashComponent encoded = (Returns s, []).
Proof.
  intros Hunits Hwf.
  destruct (encode_then_decode (length s) s (le_n _) Hunits Hwf)
    as (e & He & Hd).
  exists (replace_hash_characters e). unfold encodeHashComponent.
  rewrite He. split; [reflexivity|].
  unfold decodeHashComponent. fold (dotted e). now rewrite Hd.
Qed.

Lemma hash_component_round_trip_witness :
  let s := [0x28; 0xD83D; 0xDE00; 0x2E; 0x25; 0xE9; 0x20AC; 0x29] in
  Forall is_code_unit s
  /\ isWellFormed s = true
  /\ exists encoded,
      encodeHashComponent s = Returns encoded
      /\ decodeHashComponent encoded = (Returns s, []).
Proof.
  assert (Hunits : Forall is_code_unit
                     [0x28; 0xD83D; 0xDE00; 0x2E; 0x25; 0xE9; 0x20AC; 0x29])
    by (repeat constructor; unfold is_code_unit; lia).
  split; [exact Hunits|]. split; [reflexivity|].
  apply (hash_component_round_trip _ Hunits). reflexivity.
Defined.

(** A string with a surrogate standing alone is not encoded at all. *)
Lemma encodeHashComponent_ill_formed (s : jsstring) :
  isWellFormed s = false -> encodeHashComponent s = Throws URIError.
Proof.
  intros Hwf. unfold encodeHashComponent.
  now rewrite (encode_ill_formed (length s) s (le_n _) Hwf).
Qed.

(** C8, as the claim states it, fails: the one-unit string [\uD800] is a
    string, [encodeHashComponent] throws a [URIError] on it, and so there
    is nothing to decode back. *)
Lemma lone_surrogate_not_encoded :
  Forall is_code_unit [0xD800]
  /\ encodeHashComponent [0xD800] = Throws URIError
  /\ ~ (exists encoded,
          encodeHashComponent [0xD800] = Returns encoded
          /\ decodeHashComponent encoded = (Returns [0xD800], [])).
Proof.
  split; [repeat constructor; unfold is_code_unit; lia|].
  split; [reflexivity|].
  intros (encoded & He & _). discriminate He.
Qed.

(** *** Links that are not message links *)

Lemma split_from_nonempty sep cur skip s : split_from sep cur skip s <> [].
Proof.
  revert cur skip. induction s as [|c s IH]; intros cur skip; simpl.
  - discriminate.
  - destruct skip; [|apply IH].
    destruct (starts_with sep (c :: s)); [discriminate | apply IH].
Qed.

Lemma pop_nonempty {A} (a : list A) : a <> [] -> exists x, pop a = Some x.
Proof.
  induction a as [|x a IH]; [congruence|]. intros _.
  destruct a as [|y a]; [now exists x|].
  destruct IH as [z Hz]; [discriminate|]. exists z. exact Hz.
Qed.

Lemma pop_split s sep : sep <> [] -> exists x, pop (split s sep) = Some x.
Proof.
  intros Hsep. apply pop_nonempty. destruct sep as [|c sep]; [congruence|].
  apply split_from_nonempty.
Qed.

Lemma getPathsFromUrl_returns url realm :
  href realm <> [] -> exists paths, getPathsFromUrl url realm = Returns paths.
Proof.
  intros Hrealm. unfold getPathsFromUrl, toString.
  destruct (pop_split url (href realm) Hrealm) as [afterRealm ->].
  destruct (pop_split afterRealm (js "#narrow/")) as [afterNarrow ->];
    [discriminate|].
  match goal with |- context [if ?b then _ else _] => destruct b end; eauto.
Qed.

(** C9.  For a realm [URL] (its [href] is not empty): when
    [isMessageLink(url, realm)] is [false], [getMessageIdFromLink] returns
    [0]; and [getLinkType] returns ['external'] exactly when
    [isInternalLink] is [false]. *)
Theorem non_message_link_fallback
    (URL_new : jsstring -> URL -> outcome URL)
    (number : Type) (literal : Z -> number)
    (parseInt : option jsstring -> number -> number)
    (url : jsstring) (realm : URL) :
  href realm <> [] ->
  (isMessageLink URL_new url realm = Returns false ->
   getMessageIdFromLink URL_new number literal parseInt url realm
   = Returns (literal 0))
  /\ (getLinkType URL_new url realm = Returns external
      <-> isInternalLink URL_new url realm = Returns false).
Proof.
  intros Hrealm. split.
  - intros Hnot. unfold getMessageIdFromLink.
    destruct (getPathsFromUrl_returns url realm Hrealm) as [paths ->].
    cbn [bind]. rewrite Hnot. reflexivity.
  - unfold getLinkType.
    destruct (isInternalLink URL_new url realm) as [[|]|e]; cbn [bind negb].
    + split; [|discriminate].
      destruct (getPathsFromUrl url realm) as [paths|e]; cbn [bind];
        [|discriminate].
      repeat match goal with
        | |- context [if ?b then _ else _] => destruct b
        end; discriminate.
    + split; reflexivity.
    + split; discriminate.
Qed.


Lemma non_message_link_fallback_witness :
  let url := js "#narrow/stream/jest" in
  href example_realm <> []
  /\ isMessageLink URL_new_fragment url example_realm = Returns false
  /\ getMessageIdFromLink URL_new_fragment (option Z) Some parseInt_decimal
       url example_realm = Returns (Some 0)
  /\ (getLinkType URL_new_fragment url example_realm = Returns external
      <-> isInternalLink URL_new_fragment url example_realm = Returns false).
Proof.
  destruct (non_message_link_fallback URL_new_fragment (option Z) Some
              parseInt_decimal (js "#narrow/stream/jest") example_realm)
    as [Hid Htype].
  - discriminate.
  - split; [discriminate|]. split; [reflexivity|].
    split; [apply Hid; reflexivity | exact Htype].
Defined.

Example getLinkType_examples :
  map (fun u => getLinkType URL_new_fragment (js u) example_realm)
    ["#narrow/stream/jest/topic/test"; "#narrow/stream/jest";
     "#narrow/pm-with/1,2-group/near/1"; "#narrow/is/Starred";
     "#narrow/"; "https://other.example/"]%string
  = [Returns topic; Returns stream; Returns pm; Returns special;
     Returns home; Returns external].
Proof. vm_compute. reflexivity. Qed.

Example getMessageIdFromLink_examples :
  map (fun u =>
         getMessageIdFromLink URL_new_fragment (option Z) Some
           parseInt_decimal (js u) example_realm)
    ["#narrow/stream/jest/topic/test/near/1234"; "#narrow/stream/jest";
     "#narrow/near"]%string
  = [Returns (Some 1234); Returns (Some 0); Returns None].
Proof. vm_compute. reflexivity. Qed.

(** *** Splitting at a one-character separator *)

Lemma split_from_single_cons c cur x s :
  split_from [c] cur O (x :: s)
  = if c =? x then cur :: split_from [c] [] O s
    else split_from [c] (cur ++ [x]) O s.
Proof. simpl. now rewrite andb_true_r. Qed.

Lemma split_from_single_free c s :
  forall cur,
    ~ In c cur ->
    Forall (fun piece => ~ In c piece) (split_from [c] cur O s).
Proof.
  induction s as [|x s IH]; intros cur Hcur.
  - repeat constructor. exact Hcur.
  - rewrite split_from_single_cons.
    destruct (Z.eqb_spec c x) as [->|Hne].
    + constructor; [exact Hcur|]. apply IH. intros [].
    + apply IH. rewrite in_app_iff. simpl. intuition congruence.
Qed.

Lemma split_from_single_head c a b :
  forall cur,
    ~ In c a ->
    split_from [c] cur O (a ++ c :: b)
    = (cur ++ a) :: split_from [c] [] O b.
Proof.
  induction a as [|x a IH]; intros cur Ha.
  - simpl app. rewrite split_from_single_cons, Z.eqb_refl.
    now rewrite app_nil_r.
  - simpl app. rewrite split_from_single_cons.
    destruct (Z.eqb_spec c x) as [->|Hne]; [exfalso; apply Ha; now left|].
    rewrite IH by (intros Hin; apply Ha; now right).
    now rewrite <- app_assoc.
Qed.

Lemma split_from_single_whole c a :
  forall cur, ~ In c a -> split_from [c] cur O a = [cur ++ a].
Proof.
  induction a as [|x a IH]; intros cur Ha.
  - simpl. now rewrite app_nil_r.
  - rewrite split_from_single_cons.
    destruct (Z.eqb_spec c x) as [->|Hne]; [exfalso; apply Ha; now left|].
    rewrite IH by (intros Hin; apply Ha; now right).
    now rewrite <- app_assoc.
Qed.

Lemma Forall_removelast {A} (P : A -> Prop) (l : list A) :
  Forall P l -> Forall P (removelast l).
Proof.
  induction 1 as [|x l Hx Hl IH]; [constructor|].
  simpl. destruct l; [constructor|]. constructor; assumption.
Qed.

(** X4. No component that [getPathsFromUrl] returns contains a ['/']. *)
Theorem getPathsFromUrl_components_have_no_slash
    (url : jsstring) (realm : URL) (paths : list jsstring) :
  getPathsFromUrl url realm = Returns paths ->
  Forall (fun component => ~ In 47 component) paths.
Proof.
  unfold getPathsFromUrl.
  destruct (pop (split url (toString realm))) as [afterRealm|];
    [|discriminate].
  destruct (pop (split afterRealm (js "#narrow/"))) as [afterNarrow|];
    [|discriminate].
  assert (Hfree : Forall (fun component => ~ In 47 component)
                    (split afterNarrow (js "/")))
    by (apply split_from_single_free; intros []).
  match goal with |- context [if ?b then _ else _] => destruct b end;
    intros [= <-]; [now apply Forall_removelast | exact Hfree].
Qed.

Lemma getPathsFromUrl_components_have_no_slash_witness :
  let url := js "https://example.com/#narrow/stream/jest/topic/a.2Fb/" in
  let paths := [js "stream"; js "jest"; js "topic"; js "a.2Fb"] in
  getPathsFromUrl url example_realm = Returns paths
  /\ Forall (fun component => ~ In 47 component) paths.
Proof.
  split; [reflexivity|].
  apply (getPathsFromUrl_components_have_no_slash
           (js "https://example.com/#narrow/stream/jest/topic/a.2Fb/")
           example_realm).
  reflexivity.
Defined.

Lemma pop_none {A} (a : list A) : pop a = None <-> a = [].
Proof.
  split; [|now intros ->].
  destruct a as [|x a]; [reflexivity|]. intros Hpop.
  destruct (pop_nonempty (x :: a)) as [y Hy]; [discriminate|]. congruence.
Qed.

(** X5. [getPathsFromUrl] throws exactly when both the url and the
    realm's string are empty, and then a [TypeError]; otherwise it returns. *)
Theorem getPathsFromUrl_throws_iff (url : jsstring) (realm : URL) :
  (getPathsFromUrl url realm = Throws TypeError
   <-> url = [] /\ href realm = [])
  /\ ((exists paths, getPathsFromUrl url realm = Returns paths)
      <-> ~ (url = [] /\ href realm = [])).
Proof.
  assert (Hcases :
            (url = [] /\ href realm = []
             /\ getPathsFromUrl url realm = Throws TypeError)
            \/ (~ (url = [] /\ href realm = [])
                /\ exists paths, getPathsFromUrl url realm = Returns paths)).
  { unfold getPathsFromUrl, toString.
    destruct (pop (split url (href realm))) as [afterRealm|] eqn:Hpop.
    - right. split.
      + intros [-> Hrealm]. rewrite Hrealm in Hpop. discriminate.
      + destruct (pop_split afterRealm (js "#narrow/")) as [afterNarrow ->];
          [discriminate|].
        match goal with |- context [if ?b then _ else _] => destruct b end;
          eauto.
    - left. apply pop_none in Hpop.
      destruct (href realm) as [|c sep] eqn:Hrealm.
      + destruct url; [auto|discriminate].
      + exfalso. now apply (split_from_nonempty (c :: sep) [] O url). }
  destruct Hcases as [(Hu & Hr & Ht)|(Hn & paths & Hp)].
  - rewrite Ht. split; split; try tauto.
    intros (paths & Hp). discriminate.
  - rewrite Hp. split; split; try tauto; try discriminate. eauto.
Qed.

(** *** Reading path components *)

Lemma lastIndexOf_lower (a : list jsstring) x : -1 <= lastIndexOf a x.
Proof.
  induction a as [|y a IH]; simpl; [lia|].
  destruct (Z.leb_spec 0 (lastIndexOf a x)); [lia|].
  destruct (strict_equal y x); lia.
Qed.

Lemma lastIndexOf_absent (a : list jsstring) x :
  ~ In x a -> lastIndexOf a x = -1.
Proof.
  induction a as [|y a IH]; simpl; [reflexivity|]. intros Hin.
  rewrite IH by tauto. simpl.
  rewrite strict_equal_neq; [reflexivity|]. intros ->. tauto.
Qed.

Lemma lastIndexOf_last (pre post : list jsstring) x :
  ~ In x post ->
  lastIndexOf (pre ++ x :: post) x = Z.of_nat (length pre).
Proof.
  intros Hpost. induction pre as [|y pre IH].
  - simpl. rewrite lastIndexOf_absent by exact Hpost. simpl.
    now rewrite strict_equal_refl.
  - cbn [app lastIndexOf length]. rewrite IH.
    destruct (Z.leb_spec 0 (Z.of_nat (length pre))); lia.
Qed.

Lemma at_index_after (pre post : list jsstring) x :
  at_index (pre ++ x :: post) (Z.of_nat (length pre) + 1) = hd_error post.
Proof.
  unfold at_index.
  destruct (Z.ltb_spec (Z.of_nat (length pre) + 1) 0); [lia|].
  replace (Z.to_nat (Z.of_nat (length pre) + 1)) with (length pre + 1)%nat
    by lia.
  rewrite nth_error_app2 by lia.
  replace (length pre + 1 - length pre)%nat with 1%nat by lia.
  now destruct post.
Qed.

Lemma at_index_defined {A} (a : list A) (i : Z) :
  0 <= i < Z.of_nat (length a) -> exists x, at_index a i = Some x.
Proof.
  intros Hi. unfold at_index. destruct (Z.ltb_spec i 0); [lia|].
  destruct (nth_error a (Z.to_nat i)) as [x|] eqn:E; [eauto|].
  apply nth_error_None in E. lia.
Qed.

Lemma at_index_is_true (a : list jsstring) i lit :
  at_index_is a i lit = true -> at_index a i = Some lit.
Proof.
  unfold at_index_is. destruct (at_index a i) as [x|]; [|discriminate].
  intros E. apply strict_equal_spec in E. now subst.
Qed.

Section LinkFacts.
Variable URL_new : jsstring -> URL -> outcome URL.
Variable number : Type.
Variable literal : Z -> number.
Variable parseInt : option jsstring -> number -> number.

(** X6. On a message link the id is read from the component that follows
    the last ['near'] component ([undefined] if it is the last one). *)
Theorem getMessageIdFromLink_after_last_near
    (url : jsstring) (realm : URL) (pre post : list jsstring) :
  isMessageLink URL_new url realm = Returns true ->
  getPathsFromUrl url realm = Returns (pre ++ js "near" :: post) ->
  ~ In (js "near") post ->
  getMessageIdFromLink URL_new number literal parseInt url realm
  = Returns (parseInt (hd_error post) (literal 10)).
Proof.
  intros Hmessage Hpaths Hpost. unfold getMessageIdFromLink.
  rewrite Hpaths. cbn [bind]. rewrite Hmessage. cbn [bind].
  now rewrite lastIndexOf_last, at_index_after.
Qed.

(** X7. When the url contains [near] but no component is exactly ['near'],
    [lastIndexOf] gives -1 and the id is read from the first component. *)
Theorem getMessageIdFromLink_without_near_component
    (url : jsstring) (realm : URL) (paths : list jsstring) :
  isMessageLink URL_new url realm = Returns true ->
  getPathsFromUrl url realm = Returns paths ->
  ~ In (js "near") paths ->
  getMessageIdFromLink URL_new number literal parseInt url realm
  = Returns (parseInt (hd_error paths) (literal 10)).
Proof.
  intros Hmessage Hpaths Habsent. unfold getMessageIdFromLink.
  rewrite Hpaths. cbn [bind]. rewrite Hmessage. cbn [bind].
  rewrite lastIndexOf_absent by exact Habsent.
  now destruct paths.
Qed.

Lemma getLinkType_external (url : jsstring) (realm : URL) :
  getLinkType URL_new url realm = Returns external ->
  isInternalLink URL_new url realm = Returns false.
Proof.
  unfold getLinkType.
  destruct (isInternalLink URL_new url realm) as [[|]|e]; cbn [bind negb];
    [|reflexivity|discriminate].
  destruct (getPathsFromUrl url realm) as [paths|e]; cbn [bind];
    [|discriminate].
  repeat match goal with
    | |- context [if ?b then _ else _] => destruct b
    end; discriminate.
Qed.

(** X8. A link that [getLinkType] calls external has message id 0. *)
Theorem external_link_has_no_message_id (url : jsstring) (realm : URL) :
  href realm <> [] ->
  getLinkType URL_new url realm = Returns external ->
  getMessageIdFromLink URL_new number literal parseInt url realm
  = Returns (literal 0).
Proof.
  intros Hrealm Hexternal. apply getLinkType_external in Hexternal.
  unfold getMessageIdFromLink, isMessageLink.
  destruct (getPathsFromUrl_returns url realm Hrealm) as [paths ->].
  cbn [bind]. rewrite Hexternal. reflexivity.
Qed.


Lemma length_eqb (paths : list jsstring) (n : nat) :
  (Z.of_nat (length paths) =? Z.of_nat n) = true -> length paths = n.
Proof. intros E. apply Z.eqb_eq in E. lia. Qed.

(** X9. Whenever [getLinkType] returns a type other than ['external'],
    [getPathsFromUrl] returns, and the components that [getNarrowFromLink]
    reads for that type ([paths[1]], and [paths[3]] for a topic) are
    strings, not [undefined]. *)
Theorem getLinkType_operands_defined
    (url : jsstring) (realm : URL) (t : LinkType) :
  getLinkType URL_new url realm = Returns t ->
  t <> external ->
  exists paths,
    getPathsFromUrl url realm = Returns paths /\ operands_defined t paths.
Proof.
  unfold getLinkType.
  destruct (isInternalLink URL_new url realm) as [[|]|e]; cbn [bind negb];
    [|congruence|discriminate].
  destruct (getPathsFromUrl url realm) as [paths|e]; cbn [bind];
    [|discriminate].
  intros Ht _. exists paths. split; [reflexivity|].
  repeat match type of Ht with
    | (if ?b then _ else _) = _ => destruct b eqn:?
    end; injection Ht as <-; simpl; [| | | |exact I];
    repeat match goal with
      | E : (_ || _) = true |- _ => apply orb_true_iff in E; destruct E
      | E : (_ && _) = true |- _ => apply andb_true_iff in E; destruct E
      | E : (Z.of_nat (length paths) =? 2) = true |- _ =>
          apply (length_eqb paths 2) in E
      | E : (Z.of_nat (length paths) =? 4) = true |- _ =>
          apply (length_eqb paths 4) in E
      | E : (Z.of_nat (length paths) =? 6) = true |- _ =>
          apply (length_eqb paths 6) in E
      | E : at_index_is _ _ _ = true |- _ => apply at_index_is_true in E
      end;
    repeat split; auto; try (apply at_index_defined; lia).
Qed.
End LinkFacts.

(** *** The shape of an encoded component *)

(** Induction along the run of [encodeURIComponent]. *)
Lemma encodeURIComponent_ind (P : jsstring -> jsstring -> Prop) :
  P [] [] ->
  (forall C rest R,
      is_unescaped C = true ->
      encodeURIComponent rest = Returns R -> P rest R ->
      P (C :: rest) (C :: R)) ->
  (forall C rest R,
      is_unescaped C = false ->
      is_leading_surrogate C = false ->
      is_trailing_surrogate C = false ->
      encodeURIComponent rest = Returns R -> P rest R ->
      P (C :: rest) (escape_octets (utf8_octets C) ++ R)) ->
  (forall C second rest R,
      is_unescaped C = false ->
      is_leading_surrogate C = true ->
      is_trailing_surrogate second = true ->
      encodeURIComponent rest = Returns R -> P rest R ->
      P (C :: second :: rest)
        (escape_octets (utf8_octets (UTF16SurrogatePairToCodePoint C second))
         ++ R)) ->
  forall s e, encodeURIComponent s = Returns e -> P s e.
Proof.
  intros Hnil Hplain Hunit Hpair s.
  assert (H : forall n s, (length s <= n)%nat ->
                forall e, encodeURIComponent s = Returns e -> P s e).
  { clear s. induction n as [|n IH]; intros [|C rest] Hlen e He;
      try (injection He as <-; exact Hnil); [simpl in Hlen; lia|].
    cbn [encodeURIComponent] in He. simpl in Hlen.
    destruct (is_unescaped C) eqn:Hun.
    - destruct (encodeURIComponent rest) as [R|] eqn:HR; [|discriminate].
      injection He as <-. apply Hplain; auto. apply IH; [lia|exact HR].
    - destruct (is_trailing_surrogate C) eqn:Ht; [discriminate|].
      destruct (is_leading_surrogate C) eqn:Hl.
      + destruct rest as [|second rest]; [discriminate|].
        destruct (is_trailing_surrogate second) eqn:Ht2; [|discriminate].
        destruct (encodeURIComponent rest) as [R|] eqn:HR; [|discriminate].
        injection He as <-. apply Hpair; auto.
        apply IH; [simpl in Hlen; lia|exact HR].
      + destruct (encodeURIComponent rest) as [R|] eqn:HR; [|discriminate].
        injection He as <-. apply Hunit; auto. apply IH; [lia|exact HR]. }
  intros e. apply (H (length s)). lia.
Qed.

Lemma replace_hash_characters_app x y :
  replace_hash_characters (x ++ y)
  = replace_hash_characters x ++ replace_hash_characters y.
Proof. unfold replace_hash_characters. apply flat_map_app. Qed.

Lemma hex_digit_cases d :
  0 <= d < 16 ->
  In (hex_digit d) (js "0123456789ABCDEF").
Proof.
  intros Hd.
  assert (Hcases : d = 0 \/ d = 1 \/ d = 2 \/ d = 3 \/ d = 4 \/ d = 5
                   \/ d = 6 \/ d = 7 \/ d = 8 \/ d = 9 \/ d = 10 \/ d = 11
                   \/ d = 12 \/ d = 13 \/ d = 14 \/ d = 15) by lia.
  repeat (destruct Hcases as [->|Hcases]; [vm_compute; tauto|]).
  subst. vm_compute. tauto.
Qed.

Lemma replace_hash_characters_hex h :
  In h (js "0123456789ABCDEF") ->
  replace_hash_characters [h] = [h] /\ is_hash_safe h = true.
Proof.
  intros Hin. vm_compute in Hin.
  repeat (destruct Hin as [<-|Hin]; [split; reflexivity|]).
  contradiction.
Qed.

Lemma replace_hash_characters_escape o :
  0 <= o < 256 ->
  replace_hash_characters (escape o)
  = [46; hex_digit (o / 16); hex_digit (o mod 16)]
  /\ Forall (fun c => is_hash_safe c = true)
       [46; hex_digit (o / 16); hex_digit (o mod 16)].
Proof.
  intros Ho.
  destruct (replace_hash_characters_hex (hex_digit (o / 16))) as [E1 S1];
    [apply hex_digit_cases; Z.div_mod_to_equations; lia|].
  destruct (replace_hash_characters_hex (hex_digit (o mod 16))) as [E2 S2];
    [apply hex_digit_cases; Z.div_mod_to_equations; lia|].
  split.
  - unfold escape.
    change [37; hex_digit (o / 16); hex_digit (o mod 16)]
      with ([37] ++ [hex_digit (o / 16)] ++ [hex_digit (o mod 16)]).
    now rewrite !replace_hash_characters_app, E1, E2.
  - repeat constructor; assumption.
Qed.

Lemma replace_hash_characters_escapes os :
  Forall (fun o => 0 <= o < 256) os ->
  Forall (fun c => is_hash_safe c = true)
    (replace_hash_characters (escape_octets os)).
Proof.
  induction 1 as [|o os Ho _ IH]; [constructor|].
  cbn [escape_octets flat_map]. fold (escape_octets os).
  rewrite replace_hash_characters_app. apply Forall_app. split; [|exact IH].
  destruct (replace_hash_characters_escape o Ho) as [-> Hsafe]. exact Hsafe.
Qed.

Lemma replace_hash_characters_unescaped C :
  is_unescaped C = true ->
  Forall (fun c => is_hash_safe c = true) (replace_hash_characters [C]).
Proof.
  unfold is_unescaped. intros H.
  apply existsb_exists in H as (x & Hin & Heq).
  apply Z.eqb_eq in Heq. subst x. vm_compute in Hin.
  repeat (destruct Hin as [<-|Hin]; [repeat constructor|]).
  contradiction.
Qed.

Lemma encodeURIComponent_octets s e :
  Forall is_code_unit s ->
  encodeURIComponent s = Returns e ->
  Forall (fun c => is_hash_safe c = true) (replace_hash_characters e).
Proof.
  intros Hunits He. revert Hunits.
  apply (encodeURIComponent_ind
           (fun s e =>
              Forall is_code_unit s ->
              Forall (fun c => is_hash_safe c = true)
                (replace_hash_characters e)))
    with (s := s) (e := e); [| | | |exact He]; clear s e He.
  - constructor.
  - intros C rest R Hun _ IH Hunits. inversion Hunits; subst.
    change (C :: R) with ([C] ++ R). rewrite replace_hash_characters_app.
    apply Forall_app. split; [now apply replace_hash_characters_unescaped|].
    auto.
  - intros C rest R _ Hl Ht _ IH Hunits. inversion Hunits; subst.
    rewrite replace_hash_characters_app. apply Forall_app. split; [|auto].
    apply replace_hash_characters_escapes, utf8_octets_are_octets.
    now apply not_surrogate_scalar.
  - intros C second rest R _ Hl Ht _ IH Hunits.
    inversion Hunits as [|? ? _ Hunits']; subst. inversion Hunits'; subst.
    rewrite replace_hash_characters_app. apply Forall_app. split; [|auto].
    apply replace_hash_characters_escapes, utf8_octets_are_octets.
    now destruct (UTF16Encode_pair C second Hl Ht) as (_ & [? _] & _).
Qed.

Lemma hash_safe_excludes c :
  is_hash_safe c = true ->
  ~ In c (js "/%#() ") /\ is_line_terminator c = false.
Proof.
  intros Hc. unfold is_hash_safe, is_unescaped in Hc.
  apply andb_true_iff in Hc as [Hc Hparen].
  apply existsb_exists in Hc as (x & Hin & Heq).
  apply Z.eqb_eq in Heq. subst x. vm_compute in Hin.
  repeat (destruct Hin as [<-|Hin];
          [first [ discriminate Hparen
                 | split; [vm_compute; intuition discriminate
                          | reflexivity] ]|]).
  contradiction.
Qed.

(** X10. Whatever [encodeHashComponent] returns is made of ASCII letters,
    digits and [-_.!~*'] only; in particular it contains no ['/'],
    ['%'], ['#'], parenthesis, space or line terminator. *)
Theorem encodeHashComponent_alphabet (s encoded : jsstring) :
  Forall is_code_unit s ->
  encodeHashComponent s = Returns encoded ->
  Forall (fun c => is_hash_safe c = true) encoded
  /\ Forall (fun c => ~ In c (js "/%#() ") /\ is_line_terminator c = false)
       encoded.
Proof.
  intros Hunits. unfold encodeHashComponent.
  destruct (encodeURIComponent s) as [e|] eqn:He; [|discriminate].
  intros [= <-].
  pose proof (encodeURIComponent_octets s e Hunits He) as Hsafe.
  split; [exact Hsafe|].
  eapply Forall_impl; [exact Hsafe|]. exact hash_safe_excludes.
Qed.

Lemma encodeHashComponent_alphabet_witness :
  let s := [0x61; 0x2F; 0x20; 0x28; 0xE9; 0x0A] in
  Forall is_code_unit s
  /\ encodeHashComponent s = Returns (js "a.2F.20.28.C3.A9.0A")
  /\ Forall (fun c => is_hash_safe c = true) (js "a.2F.20.28.C3.A9.0A")
  /\ Forall (fun c => ~ In c (js "/%#() ") /\ is_line_terminator c = false)
       (js "a.2F.20.28.C3.A9.0A").
Proof.
  assert (Hunits : Forall is_code_unit [0x61; 0x2F; 0x20; 0x28; 0xE9; 0x0A])
    by (repeat constructor; unfold is_code_unit; lia).
  split; [exact Hunits|]. split; [reflexivity|].
  apply (encodeHashComponent_alphabet _ _ Hunits). reflexivity.
Defined.

Lemma encodeURIComponent_app s1 e1 :
  encodeURIComponent s1 = Returns e1 ->
  forall s2,
    encodeURIComponent (s1 ++ s2)
    = bind (encodeURIComponent s2) (fun e2 => Returns (e1 ++ e2)).
Proof.
  intros He.
  apply (encodeURIComponent_ind
           (fun s1 e1 =>
              forall s2,
                encodeURIComponent (s1 ++ s2)
                = bind (encodeURIComponent s2)
                    (fun e2 => Returns (e1 ++ e2))))
    with (s := s1) (e := e1); [| | | |exact He]; clear s1 e1 He.
  - intros s2. simpl. now destruct (encodeURIComponent s2).
  - intros C rest R Hun _ IH s2. cbn [app encodeURIComponent].
    rewrite Hun, IH. now destruct (encodeURIComponent s2).
  - intros C rest R Hun Hl Ht _ IH s2. cbn [app encodeURIComponent].
    rewrite Hun, Hl, Ht, IH. destruct (encodeURIComponent s2); simpl;
      [now rewrite app_assoc|reflexivity].
  - intros C second rest R Hun Hl Ht _ IH s2. cbn [app encodeURIComponent].
    rewrite Hun, Hl, (surrogates_exclusive C Hl), Ht, IH.
    destruct (encodeURIComponent s2); simpl;
      [now rewrite app_assoc|reflexivity].
Qed.

(** X11. Encoding distributes over concatenation: when both parts can be
    encoded, the whole is encoded to the two encodings one after the
    other. *)
Theorem encodeHashComponent_app (s1 s2 e1 e2 : jsstring) :
  encodeHashComponent s1 = Returns e1 ->
  encodeHashComponent s2 = Returns e2 ->
  encodeHashComponent (s1 ++ s2) = Returns (e1 ++ e2).
Proof.
  unfold encodeHashComponent.
  destruct (encodeURIComponent s1) as [x1|] eqn:H1; [|discriminate].
  destruct (encodeURIComponent s2) as [x2|] eqn:H2; [|discriminate].
  intros [= <-] [= <-].
  rewrite (encodeURIComponent_app s1 x1 H1), H2. simpl.
  now rewrite replace_hash_characters_app.
Qed.

Lemma encodeHashComponent_app_witness :
  encodeHashComponent (js "a b") = Returns (js "a.20b")
  /\ encodeHashComponent (js "(c)") = Returns (js ".28c.29")
  /\ encodeHashComponent (js "a b" ++ js "(c)")
     = Returns (js "a.20b" ++ js ".28c.29").
Proof.
  split; [reflexivity|]. split; [reflexivity|].
  apply (encodeHashComponent_app (js "a b") (js "(c)")); reflexivity.
Defined.

Lemma encode_well_formed s e :
  encodeURIComponent s = Returns e -> isWellFormed s = true.
Proof.
  intros He. destruct (isWellFormed s) eqn:Hwf; [reflexivity|].
  rewrite (encode_ill_formed (length s) s (le_n _) Hwf) in He. discriminate.
Qed.

Lemma encode_returns s :
  isWellFormed s = true -> exists e, encodeURIComponent s = Returns e.
Proof.
  assert (H : forall n s, (length s <= n)%nat -> isWellFormed s = true ->
                exists e, encodeURIComponent s = Returns e).
  { clear s. induction n as [|n IH]; intros [|C rest] Hlen Hwf;
      try (exists []; reflexivity); [simpl in Hlen; lia|].
    cbn [encodeURIComponent]. cbn [isWellFormed] in Hwf. simpl in Hlen.
    destruct (is_unescaped C) eqn:Hun.
    - destruct (unescaped_round C [] Hun) as [Hascii _].
      assert (Hl : is_leading_surrogate C = false)
        by (apply andb_false_iff; left; apply Z.leb_gt; lia).
      assert (Ht : is_trailing_surrogate C = false)
        by (apply andb_false_iff; left; apply Z.leb_gt; lia).
      rewrite Hl, Ht in Hwf.
      destruct (IH rest) as [e ->]; [lia|exact Hwf|]. simpl. eauto.
    - destruct (is_leading_surrogate C) eqn:Hl.
      + rewrite (surrogates_exclusive C Hl).
        destruct rest as [|second rest]; [discriminate|].
        apply andb_true_iff in Hwf as [Ht Hwf]. rewrite Ht.
        destruct (IH rest) as [e ->]; [simpl in Hlen; lia|exact Hwf|].
        simpl. eauto.
      + destruct (is_trailing_surrogate C); [discriminate|].
        destruct (IH rest) as [e ->]; [lia|exact Hwf|]. simpl. eauto. }
  apply (H (length s)). lia.
Qed.

(** X12. [encodeHashComponent] returns exactly on the strings in which no
    surrogate stands alone, and throws a [URIError] exactly on the
    others. *)
Theorem encodeHashComponent_returns_iff (s : jsstring) :
  ((exists encoded, encodeHashComponent s = Returns encoded)
   <-> isWellFormed s = true)
  /\ (encodeHashComponent s = Throws URIError <-> isWellFormed s = false).
Proof.
  unfold encodeHashComponent. destruct (isWellFormed s) eqn:Hwf.
  - destruct (encode_returns s Hwf) as [e ->]. simpl.
    split; split; try discriminate; eauto.
  - rewrite (encode_ill_formed (length s) s (le_n _) Hwf). simpl.
    split; split; try discriminate; auto.
    intros [e He]. discriminate.
Qed.

(** X13. Two strings with the same encoding are the same string. *)
Theorem encodeHashComponent_injective (s1 s2 encoded : jsstring) :
  Forall is_code_unit s1 ->
  Forall is_code_unit s2 ->
  encodeHashComponent s1 = Returns encoded ->
  encodeHashComponent s2 = Returns encoded ->
  s1 = s2.
Proof.
  unfold encodeHashComponent. intros Hu1 Hu2.
  destruct (encodeURIComponent s1) as [x1|] eqn:H1; [|discriminate].
  destruct (encodeURIComponent s2) as [x2|] eqn:H2; [|discriminate].
  intros [= <-] [= Heq].
  destruct (encode_then_decode (length s1) s1 (le_n _) Hu1
              (encode_well_formed s1 x1 H1)) as (y1 & Hy1 & Hd1).
  destruct (encode_then_decode (length s2) s2 (le_n _) Hu2
              (encode_well_formed s2 x2 H2)) as (y2 & Hy2 & Hd2).
  rewrite H1 in Hy1. rewrite H2 in Hy2.
  injection Hy1 as <-. injection Hy2 as <-.
  unfold dotted in Hd1, Hd2. rewrite Heq in Hd2. congruence.
Qed.

Lemma encodeHashComponent_injective_witness :
  let s := [0x61; 0x2E; 0xD83D; 0xDE00] in
  Forall is_code_unit s
  /\ encodeHashComponent s = Returns (js "a.2E.F0.9F.98.80")
  /\ s = s.
Proof.
  assert (Hunits : Forall is_code_unit [0x61; 0x2E; 0xD83D; 0xDE00])
    by (repeat constructor; unfold is_code_unit; lia).
  split; [exact Hunits|]. split; [reflexivity|].
  apply (encodeHashComponent_injective _ _ (js "a.2E.F0.9F.98.80")
           Hunits Hunits); reflexivity.
Defined.

(** X14. A string with neither ['.'] nor ['%'] is decoded to itself, and
    no breadcrumb is left. *)
Theorem decodeHashComponent_plain (s : jsstring) :
  Forall (fun c => c <> 46 /\ c <> 37) s ->
  decodeHashComponent s = (Returns s, []).
Proof.
  intros Hplain. unfold decodeHashComponent.
  assert (H : decodeURIComponent (replace_dots s) = Returns s);
    [|now rewrite H].
  induction Hplain as [|c s [Hdot Hpercent] _ IH]; [reflexivity|].
  cbn [replace_dots map].
  replace (c =? 46) with false by (symmetry; now apply Z.eqb_neq).
  fold (replace_dots s). rewrite decode_literal by exact Hpercent.
  now rewrite IH.
Qed.

Lemma decodeHashComponent_plain_witness :
  Forall (fun c => c <> 46 /\ c <> 37) (js "mobile team")
  /\ decodeHashComponent (js "mobile team") = (Returns (js "mobile team"), []).
Proof.
  assert (H : Forall (fun c => c <> 46 /\ c <> 37) (js "mobile team"))
    by (repeat constructor; discriminate).
  split; [exact H|]. exact (decodeHashComponent_plain _ H).
Defined.

(** *** Stream operands *)

Lemma digit_prefix_app digits rest :
  Forall (fun c => is_digit c = true) digits ->
  hd_error rest = None
  \/ (exists c, hd_error rest = Some c /\ is_digit c = false) ->
  digit_prefix (digits ++ rest) = (digits, rest).
Proof.
  intros Hdigits Hrest. induction Hdigits as [|c digits Hc _ IH].
  - destruct rest as [|c rest]; [reflexivity|]. simpl.
    destruct Hrest as [Hrest|(c' & [= <-] & Hc)]; [discriminate|].
    now rewrite Hc.
  - simpl. now rewrite Hc, IH.
Qed.

Lemma exec_stream_id_new_format digits tail :
  digits <> [] ->
  Forall (fun c => is_digit c = true) digits ->
  Forall (fun c => is_line_terminator c = false) tail ->
  exec_stream_id (digits ++ 45 :: tail) = Some digits.
Proof.
  intros Hne Hdigits Htail. unfold exec_stream_id.
  rewrite digit_prefix_app by (auto; right; exists 45; auto).
  destruct digits; [congruence|]. simpl.
  replace (forallb (fun d => negb (is_line_terminator d)) tail) with true;
    [reflexivity|].
  symmetry. apply forallb_forall. intros d Hd.
  rewrite Forall_forall in Htail.
  now rewrite (Htail d (proj2 (list_elem_of_In _ _) Hd)).
Qed.

Section NarrowFacts.
Context {number : Type} `{Countable number}.
Variable literal : Z -> number.
Variable parseInt : option jsstring -> number -> number.
Variable Number_toString : number -> jsstring.
Variable URL_new : jsstring -> URL -> outcome URL.
Context {UserId PmKeyRecipients Narrow : Type}.
Variable makeUserId : number -> UserId.
Variable pmKeyRecipientsFromIds :
  list UserId -> UserId -> outcome PmKeyRecipients.
Variable pmNarrowFromRecipients : PmKeyRecipients -> outcome Narrow.
Variable topicNarrow : jsstring -> jsstring -> outcome Narrow.
Variable streamNarrow : jsstring -> outcome Narrow.
Variable specialNarrow : option jsstring -> outcome Narrow.

(** X15. An operand in the new format whose id is a known stream names
    that stream, whatever follows the id: the name part of the link is
    never looked at, so it need not even decode. *)
Theorem parseStreamOperand_by_id
    (digits tail : jsstring) (found : Stream number)
    (streamsById : gmap number (Stream number))
    (streamsByName : gmap jsstring (Stream number)) :
  digits <> [] ->
  Forall (fun c => is_digit c = true) digits ->
  Forall (fun c => is_line_terminator c = false) tail ->
  streamsById !! parseInt (Some digits) (literal 10) = Some found ->
  parseStreamOperand literal parseInt (digits ++ 45 :: tail)
    streamsById streamsByName
  = (Returns (Some (name found, parseInt (Some digits) (literal 10))), []).
Proof.
  intros Hne Hdigits Htail Hfound. unfold parseStreamOperand.
  rewrite exec_stream_id_new_format by assumption.
  now rewrite Hfound.
Qed.

(** X16. A pair that [parseStreamOperand] returns is the name and id of a
    stream of one of the two maps: found under that id in
    [streamsById], or under that name in [streamsByName]. *)
Theorem parseStreamOperand_sound
    (operand streamName : jsstring) (streamId : number)
    (log : list Breadcrumb)
    (streamsById : gmap number (Stream number))
    (streamsByName : gmap jsstring (Stream number)) :
  parseStreamOperand literal parseInt operand streamsById streamsByName
  = (Returns (Some (streamName, streamId)), log) ->
  log = []
  /\ ((exists found,
          streamsById !! streamId = Some found /\ name found = streamName)
      \/ (exists found,
             streamsByName !! streamName = Some found
             /\ stream_id found = streamId
             /\ decodeHashComponent operand = (Returns streamName, []))).
Proof.
  unfold parseStreamOperand.
  set (byId := match exec_stream_id operand with
               | Some digits => _
               | None => None
               end).
  assert (HbyId : forall found, byId = Some found ->
             exists st, streamsById !! snd found = Some st
                        /\ name st = fst found).
  { subst byId. intros found.
    destruct (exec_stream_id operand) as [digits|]; [|discriminate].
    destruct (streamsById !! parseInt (Some digits) (literal 10))
      as [st|] eqn:Hst; [|discriminate].
    intros [= <-]. simpl. eauto. }
  destruct byId as [found|].
  - intros [= -> <-]. split; [reflexivity|]. left.
    destruct (HbyId _ eq_refl) as (st & Hst & Hname). simpl in *. eauto.
  - unfold then_logged, decodeHashComponent.
    destruct (decodeURIComponent (replace_dots operand)) as [decoded|e];
      [|discriminate].
    destruct (streamsByName !! decoded) as [st|] eqn:Hst; [|discriminate].
    intros [= <- <- <-]. split; [reflexivity|]. right. eauto.
Qed.

(** X17. [parseStreamOperand] leaves a breadcrumb exactly when it throws:
    one breadcrumb, carrying the operand; and what it throws is what
    [decodeURIComponent] threw. *)
Theorem parseStreamOperand_breadcrumbs (operand : jsstring)
    (streamsById : gmap number (Stream number))
    (streamsByName : gmap jsstring (Stream number)) :
  (exists result,
      parseStreamOperand literal parseInt operand streamsById streamsByName
      = (Returns result, []))
  \/ (exists err,
         decodeURIComponent (replace_dots operand) = Throws err
         /\ parseStreamOperand literal parseInt operand
              streamsById streamsByName
            = (Throws err,
               [{| level := js "info";
                   type := js "decoding";
                   message := js "decodeHashComponent error";
                   data_input := operand |}])).
Proof.
  unfold parseStreamOperand.
  match goal with
  | |- context [match ?b with Some _ => _ | None => then_logged _ _ end] =>
      destruct b as [found|]
  end; [left; eauto|].
  unfold then_logged, decodeHashComponent.
  destruct (decodeURIComponent (replace_dots operand)) as [decoded|e].
  - left. destruct (streamsByName !! decoded); eauto.
  - right. eauto.
Qed.

(** *** Private-message operands *)

(** X18. [parsePmOperand] reads the ids before the first ['-'] only: what
    follows it changes nothing, and there is one id per comma-separated
    piece. *)
Theorem parsePmOperand_ignores_suffix (ids suffix : jsstring) :
  ~ In 45 ids ->
  parsePmOperand literal parseInt makeUserId (Some (ids ++ 45 :: suffix))
  = parsePmOperand literal parseInt makeUserId (Some ids)
  /\ parsePmOperand literal parseInt makeUserId (Some ids)
     = Returns (map (fun s => makeUserId (parseInt (Some s) (literal 10)))
                  (split ids (js ",")))
  /\ (0 < length (split ids (js ",")))%nat.
Proof.
  intros Hids. unfold parsePmOperand.
  change (split (ids ++ 45 :: suffix) (js "-"))
    with (split_from [45] [] O (ids ++ 45 :: suffix)).
  change (split ids (js "-")) with (split_from [45] [] O ids).
  rewrite (split_from_single_head 45 ids suffix [] Hids),
    (split_from_single_whole 45 ids [] Hids).
  simpl app. cbn [at_index Z.ltb Z.compare Z.to_nat nth_error].
  repeat split.
  pose proof (split_from_nonempty (js ",") [] O ids) as Hne.
  change (split ids (js ",")) with (split_from (js ",") [] O ids).
  destruct (split_from (js ",") [] O ids); [congruence|simpl; lia].
Qed.

End NarrowFacts.

Example getNarrowFromLink_examples :
  map (fun u => fst (example_getNarrowFromLink u))
    ["#narrow/stream/42-renamed/topic/a.2Fb"; "#narrow/stream/jest";
     "#narrow/stream/99-gone"; "#narrow/pm-with/1,2-group";
     "#narrow/is/starred"; "#narrow/is/starredxyz"; "#narrow/";
     "https://other.example/"; "#narrow/stream/.zz"]%string
  = [Returns (Some (TopicNarrow (js "mobile team (dev)") (js "a/b")));
     Returns (Some (StreamNarrow (js "jest")));
     Returns None;
     Returns (Some (PmNarrow [Some 1; Some 2]));
     Returns (Some (SpecialNarrow (js "starred")));
     Returns None; Returns None; Returns None;
     Throws URIError].
Proof. vm_compute. reflexivity. Qed.

(** *** Stream links made by [getStreamURL] *)

Lemma replace_first_space_cons c s :
  replace_first (c :: s) (js " ") (js "-")
  = if 32 =? c then 45 :: s else c :: replace_first s (js " ") (js "-").
Proof.
  cbn [replace_first starts_with js map list_ascii_of_string].
  change (Z.of_N (N_of_ascii " ")) with 32. rewrite andb_true_r.
  reflexivity.
Qed.

Lemma replace_first_space_units s :
  Forall is_code_unit s ->
  Forall is_code_unit (replace_first s (js " ") (js "-")).
Proof.
  induction 1 as [|c s Hc Hs IH]; [constructor|].
  rewrite replace_first_space_cons.
  destruct (32 =? c); constructor; auto. unfold is_code_unit. lia.
Qed.

Lemma replace_first_space_well_formed s :
  isWellFormed (replace_first s (js " ") (js "-")) = isWellFormed s.
Proof.
  assert (H : forall n s, (length s <= n)%nat ->
                isWellFormed (replace_first s (js " ") (js "-"))
                = isWellFormed s).
  { clear s. induction n as [|n IH]; intros [|c s] Hlen; try reflexivity;
      [simpl in Hlen; lia|].
    simpl in Hlen. rewrite replace_first_space_cons.
    destruct (Z.eqb_spec 32 c) as [<-|Hc]; [reflexivity|].
    cbn [isWellFormed]. destruct (is_leading_surrogate c).
    - destruct s as [|d s]; [reflexivity|].
      rewrite replace_first_space_cons.
      destruct (Z.eqb_spec 32 d) as [<-|Hd]; [reflexivity|].
      rewrite IH by (simpl in Hlen; lia). reflexivity.
    - destruct (is_trailing_surrogate c); [reflexivity|].
      apply IH. lia. }
  apply (H (length s)). lia.
Qed.

Lemma encode_digits_and_hyphen s :
  Forall (fun c => is_digit c = true \/ c = 45) s ->
  encodeURIComponent s = Returns s /\ replace_hash_characters s = s.
Proof.
  induction 1 as [|c s Hc _ [IH1 IH2]]; [split; reflexivity|].
  assert (Hcases : c = 45 \/ c = 48 \/ c = 49 \/ c = 50 \/ c = 51 \/ c = 52
                   \/ c = 53 \/ c = 54 \/ c = 55 \/ c = 56 \/ c = 57).
  { destruct Hc as [Hc| ->]; [|now left]. unfold is_digit in Hc.
    apply andb_true_iff in Hc as [H1 H2].
    apply Z.leb_le in H1. apply Z.leb_le in H2. lia. }
  assert (Hun : is_unescaped c = true
                /\ replace_hash_characters [c] = [c]).
  { repeat (destruct Hcases as [->|Hcases]; [split; reflexivity|]).
    subst. split; reflexivity. }
  destruct Hun as [Hun Hrep]. split.
  - cbn [encodeURIComponent]. now rewrite Hun, IH1.
  - change (c :: s) with ([c] ++ s).
    now rewrite replace_hash_characters_app, Hrep, IH2.
Qed.

Section StreamLinkFacts.
Context {number : Type} `{Countable number}.
Variable literal : Z -> number.
Variable parseInt : option jsstring -> number -> number.
Variable Number_toString : number -> jsstring.

(** X19. The slug that [getStreamURL] makes for a known stream is read back
    by [parseStreamOperand] as that stream: its name and its id.  (The id
    is one whose string is a run of digits that [parseInt] reads back, and
    the name is well-formed UTF-16.) *)
Theorem stream_slug_round_trip
    (streamId : number) (found : Stream number)
    (streamsById : gmap number (Stream number))
    (streamsByName : gmap jsstring (Stream number)) :
  streamsById !! streamId = Some found ->
  Number_toString streamId <> [] ->
  Forall (fun c => is_digit c = true) (Number_toString streamId) ->
  parseInt (Some (Number_toString streamId)) (literal 10) = streamId ->
  Forall is_code_unit (name found) ->
  isWellFormed (name found) = true ->
  exists encodedName,
    encodeHashComponent (replace_first (name found) (js " ") (js "-"))
    = Returns encodedName
    /\ encodedStreamSlug Number_toString streamId streamsById
       = Returns (Number_toString streamId ++ js "-" ++ encodedName)
    /\ parseStreamOperand literal parseInt
         (Number_toString streamId ++ js "-" ++ encodedName)
         streamsById streamsByName
       = (Returns (Some (name found, streamId)), []).
Proof.
  intros Hfound Hne Hdigits Hparse Hunits Hwf.
  set (pretty := replace_first (name found) (js " ") (js "-")).
  assert (Hpretty_units : Forall is_code_unit pretty)
    by now apply replace_first_space_units.
  assert (Hpretty_wf : isWellFormed pretty = true)
    by (unfold pretty; now rewrite replace_first_space_well_formed).
  destruct (encode_returns pretty Hpretty_wf) as [e He].
  exists (replace_hash_characters e).
  assert (Henc : encodeHashComponent pretty
                 = Returns (replace_hash_characters e))
    by (unfold encodeHashComponent; now rewrite He).
  split; [exact Henc|].
  assert (Hhead : Forall (fun c => is_digit c = true \/ c = 45)
                    (Number_toString streamId ++ js "-")).
  { apply Forall_app. split; [|repeat constructor; now right].
    eapply Forall_impl; [exact Hdigits|]. cbv beta. auto. }
  destruct (encode_digits_and_hyphen _ Hhead) as [Hhead1 Hhead2].
  split.
  - unfold encodedStreamSlug, encodeHashComponent. rewrite Hfound.
    fold pretty. rewrite app_assoc.
    rewrite (encodeURIComponent_app _ _ Hhead1), He. simpl.
    now rewrite replace_hash_characters_app, Hhead2, <- app_assoc.
  - unfold parseStreamOperand.
    change (js "-" ++ replace_hash_characters e)
      with (45 :: replace_hash_characters e).
    rewrite exec_stream_id_new_format; [now rewrite Hparse, Hfound|auto..].
    eapply Forall_impl;
      [exact (encodeURIComponent_octets pretty e Hpretty_units He)|].
    cbv beta. intros c Hc. now apply hash_safe_excludes in Hc.
Qed.

End StreamLinkFacts.

Lemma stream_slug_round_trip_witness :
  let found := {| name := js "mobile team (dev)"; stream_id := Some 42 |} in
  example_streamsById !! Some 42 = Some found
  /\ toString_decimal (Some 42) = js "42"
  /\ parseInt_decimal (Some (js "42")) (Some 10) = Some 42
  /\ exists encodedName,
      encodeHashComponent (replace_first (name found) (js " ") (js "-"))
      = Returns encodedName
      /\ encodedStreamSlug toString_decimal (Some 42) example_streamsById
         = Returns (toString_decimal (Some 42) ++ js "-" ++ encodedName)
      /\ parseStreamOperand Some parseInt_decimal
           (toString_decimal (Some 42) ++ js "-" ++ encodedName)
           example_streamsById example_streamsByName
         = (Returns (Some (name found, Some 42)), []).
Proof.
  split; [reflexivity|]. split; [reflexivity|]. split; [reflexivity|].
  apply (stream_slug_round_trip Some parseInt_decimal toString_decimal
           (Some 42)
           {| name := js "mobile team (dev)"; stream_id := Some 42 |}
           example_streamsById example_streamsByName).
  - reflexivity.
  - discriminate.
  - repeat constructor.
  - reflexivity.
  - repeat constructor; unfold is_code_unit; lia.
  - reflexivity.
Defined.

Section GetNarrowFacts.
Context {number : Type} `{Countable number}.
Variable literal : Z -> number.
Variable parseInt : option jsstring -> number -> number.
Variable URL_new : jsstring -> URL -> outcome URL.
Context {UserId PmKeyRecipients Narrow : Type}.
Variable makeUserId : number -> UserId.
Variable pmKeyRecipientsFromIds :
  list UserId -> UserId -> outcome PmKeyRecipients.
Variable pmNarrowFromRecipients : PmKeyRecipients -> outcome Narrow.
Variable topicNarrow : jsstring -> jsstring -> outcome Narrow.
Variable streamNarrow : jsstring -> outcome Narrow.
Variable specialNarrow : option jsstring -> outcome Narrow.

Local Abbreviation narrowFromLink :=
  (getNarrowFromLink literal parseInt URL_new makeUserId
     pmKeyRecipientsFromIds pmNarrowFromRecipients topicNarrow streamNarrow
     specialNarrow).

Lemma getLinkType_paths (url : jsstring) (realm : URL) (t : LinkType) :
  getLinkType URL_new url realm = Returns t ->
  t <> external ->
  exists paths, getPathsFromUrl url realm = Returns paths.
Proof.
  unfold getLinkType.
  destruct (isInternalLink URL_new url realm) as [[|]|e]; cbn [bind negb];
    [|congruence|discriminate].
  destruct (getPathsFromUrl url realm) as [paths|e]; cbn [bind];
    [eauto|discriminate].
Qed.

(** X20. A link that is not internal never gives a narrow:
    [getNarrowFromLink] returns [null] and leaves no breadcrumb, whatever
    the maps of streams hold. *)
Theorem getNarrowFromLink_external
    (url : jsstring) (realm : URL)
    (streamsById : gmap number (Stream number))
    (streamsByName : gmap jsstring (Stream number)) (ownUserId : UserId) :
  href realm <> [] ->
  isInternalLink URL_new url realm = Returns false ->
  narrowFromLink url realm streamsById streamsByName ownUserId
  = (Returns None, []).
Proof.
  intros Hrealm Hexternal. unfold getNarrowFromLink, getLinkType.
  rewrite Hexternal. cbn [bind negb then_logged].
  destruct (getPathsFromUrl_returns url realm Hrealm) as [paths ->].
  reflexivity.
Qed.

(** X21. On a link of type ['special'] [getNarrowFromLink] never throws
    and leaves no breadcrumb: it returns the narrow that [specialNarrow]
    makes of [paths[1]], and [null] when [specialNarrow] throws. *)
Theorem getNarrowFromLink_special_never_throws
    (url : jsstring) (realm : URL)
    (streamsById : gmap number (Stream number))
    (streamsByName : gmap jsstring (Stream number)) (ownUserId : UserId) :
  getLinkType URL_new url realm = Returns special ->
  exists paths,
    getPathsFromUrl url realm = Returns paths
    /\ narrowFromLink url realm streamsById streamsByName ownUserId
       = (Returns
            match specialNarrow (at_index paths 1) with
            | Returns narrow => Some narrow
            | Throws _ => None
            end,
          []).
Proof.
  intros Htype.
  destruct (getLinkType_paths url realm special Htype) as [paths Hpaths];
    [discriminate|].
  exists paths. split; [exact Hpaths|].
  unfold getNarrowFromLink. rewrite Htype, Hpaths. cbn [then_logged].
  now destruct (specialNarrow (at_index paths 1)).
Qed.

End GetNarrowFacts.

Lemma getNarrowFromLink_external_witness :
  href example_realm <> []
  /\ isInternalLink URL_new_fragment (js "https://other.example/")
       example_realm = Returns false
  /\ example_getNarrowFromLink "https://other.example/" = (Returns None, []).
Proof.
  split; [discriminate|]. split; [reflexivity|].
  unfold example_getNarrowFromLink.
  apply getNarrowFromLink_external; [discriminate|reflexivity].
Defined.

Lemma getNarrowFromLink_special_never_throws_witness :
  let url := js "#narrow/is/starredxyz" in
  getLinkType URL_new_fragment url example_realm = Returns special
  /\ exists paths,
      getPathsFromUrl url example_realm = Returns paths
      /\ example_getNarrowFromLink "#narrow/is/starredxyz"
         = (Returns
              match example_specialNarrow (at_index paths 1) with
              | Returns narrow => Some narrow
              | Throws _ => None
              end,
            []).
Proof.
  split; [reflexivity|]. unfold example_getNarrowFromLink.
  apply getNarrowFromLink_special_never_throws. reflexivity.
Defined.

(** *** The statements about links and operands on examples *)

Lemma getMessageIdFromLink_after_last_near_witness :
  let url := js "#narrow/stream/near/topic/x/near/77" in
  isMessageLink URL_new_fragment url example_realm = Returns true
  /\ getPathsFromUrl url example_realm
     = Returns ([js "stream"; js "near"; js "topic"; js "x"]
                ++ js "near" :: [js "77"])
  /\ getMessageIdFromLink URL_new_fragment (option Z) Some parseInt_decimal
       url example_realm
     = Returns (parseInt_decimal (hd_error [js "77"]) (Some 10)).
Proof.
  split; [reflexivity|]. split; [reflexivity|].
  apply (getMessageIdFromLink_after_last_near URL_new_fragment (option Z)
           Some parseInt_decimal _ example_realm
           [js "stream"; js "near"; js "topic"; js "x"] [js "77"]);
    [reflexivity|reflexivity|].
  simpl. intros [E|[]]. discriminate E.
Defined.

Lemma getMessageIdFromLink_without_near_component_witness :
  let url := js "#narrow/stream/nearby" in
  isMessageLink URL_new_fragment url example_realm = Returns true
  /\ getPathsFromUrl url example_realm = Returns [js "stream"; js "nearby"]
  /\ getMessageIdFromLink URL_new_fragment (option Z) Some parseInt_decimal
       url example_realm
     = Returns (parseInt_decimal (Some (js "stream")) (Some 10)).
Proof.
  split; [reflexivity|]. split; [reflexivity|].
  apply (getMessageIdFromLink_without_near_component URL_new_fragment
           (option Z) Some parseInt_decimal _ example_realm
           [js "stream"; js "nearby"]); [reflexivity|reflexivity|].
  simpl. intros [E|[E|[]]]; discriminate E.
Defined.

Lemma external_link_has_no_message_id_witness :
  let url := js "https://other.example/near/1" in
  href example_realm <> []
  /\ getLinkType URL_new_fragment url example_realm = Returns external
  /\ getMessageIdFromLink URL_new_fragment (option Z) Some parseInt_decimal
       url example_realm = Returns (Some 0).
Proof.
  split; [discriminate|]. split; [reflexivity|].
  apply (external_link_has_no_message_id URL_new_fragment (option Z) Some
           parseInt_decimal); [discriminate|reflexivity].
Defined.

Lemma getLinkType_operands_defined_witness :
  let url := js "#narrow/stream/jest/topic/test/near/1" in
  getLinkType URL_new_fragment url example_realm = Returns topic
  /\ topic <> external
  /\ exists paths,
      getPathsFromUrl url example_realm = Returns paths
      /\ operands_defined topic paths.
Proof.
  split; [reflexivity|]. split; [discriminate|].
  apply (getLinkType_operands_defined URL_new_fragment);
    [reflexivity|discriminate].
Defined.

Lemma parseStreamOperand_by_id_witness :
  let found := {| name := js "mobile team (dev)"; stream_id := Some 42 |} in
  example_streamsById !! parseInt_decimal (Some (js "42")) (Some 10)
  = Some found
  /\ parseStreamOperand Some parseInt_decimal (js "42" ++ 45 :: js "old.zz")
       example_streamsById example_streamsByName
     = (Returns (Some (name found,
                       parseInt_decimal (Some (js "42")) (Some 10))), []).
Proof.
  split; [reflexivity|].
  apply (parseStreamOperand_by_id Some parseInt_decimal (js "42")
           (js "old.zz")).
  - discriminate.
  - repeat constructor.
  - repeat constructor.
  - reflexivity.
Defined.

Lemma parseStreamOperand_sound_witness :
  parseStreamOperand Some parseInt_decimal (js "jest")
    example_streamsById example_streamsByName
  = (Returns (Some (js "jest", Some 7)), [])
  /\ (@nil Breadcrumb) = []
  /\ ((exists found,
          example_streamsById !! Some 7 = Some found /\ name found = js "jest")
      \/ (exists found,
             example_streamsByName !! js "jest" = Some found
             /\ stream_id found = Some 7
             /\ decodeHashComponent (js "jest") = (Returns (js "jest"), []))).
Proof.
  split; [reflexivity|].
  apply (parseStreamOperand_sound Some parseInt_decimal (js "jest")
           (js "jest") (Some 7) [] example_streamsById example_streamsByName).
  reflexivity.
Defined.

Lemma parsePmOperand_ignores_suffix_witness :
  ~ In 45 (js "1,2,30")
  /\ parsePmOperand Some parseInt_decimal (fun n => n)
       (Some (js "1,2,30" ++ 45 :: js "group-of-three"))
     = Returns [Some 1; Some 2; Some 30].
Proof.
  assert (Hids : ~ In 45 (js "1,2,30"))
    by (simpl; intuition discriminate).
  split; [exact Hids|].
  destruct (parsePmOperand_ignores_suffix Some parseInt_decimal
              (fun n : option Z => n) (js "1,2,30") (js "group-of-three")
              Hids) as (Hsame & Hids_only & _).
  rewrite Hsame. reflexivity.
Defined.

(** *** What can be decoded *)

Lemma every_percent_escapes_triple x y t :
  is_hex_digit x && is_hex_digit y = true ->
  every_percent_escapes (37 :: x :: y :: t) = every_percent_escapes t.
Proof.
  intros Hxy. apply andb_true_iff in Hxy as [Hx Hy].
  assert (Hne : forall c, is_hex_digit c = true -> (c =? 37) = false).
  { intros c Hc. destruct (Z.eqb_spec c 37) as [->|]; [discriminate|easy]. }
  cbn [every_percent_escapes]. rewrite Z.eqb_refl, Hx, Hy.
  now rewrite (Hne x Hx), (Hne y Hy).
Qed.

Lemma continuation_some p x y c :
  continuation p x y = Some c ->
  p = 37 /\ is_hex_digit x && is_hex_digit y = true.
Proof.
  unfold continuation, ParseHexOctet, is_hex_digit.
  destruct (Z.eqb_spec p 37); [|discriminate].
  destruct (hex_value x); [|discriminate].
  destruct (hex_value y); [|discriminate]. auto.
Qed.

Lemma append_code_point_returns octets rest r :
  append_code_point octets rest = Returns r ->
  exists V R,
    utf8_code_point octets = Some V
    /\ rest = Returns R /\ r = UTF16EncodeCodePoint V ++ R.
Proof.
  unfold append_code_point.
  destruct (utf8_code_point octets) as [V|]; [|discriminate].
  destruct rest as [R|]; [|discriminate]. simpl. intros [= <-]. eauto.
Qed.

Lemma UTF16EncodeCodePoint_length V :
  (length (UTF16EncodeCodePoint V) <= 2)%nat.
Proof. unfold UTF16EncodeCodePoint. destruct (V <=? 0xFFFF); simpl; lia. Qed.

Lemma decode_well_escaped n :
  forall s r,
    (length s <= n)%nat ->
    decodeURIComponent s = Returns r ->
    every_percent_escapes s = true /\ (length r <= length s)%nat.
Proof.
  induction n as [|n IH]; intros [|C rest] r Hlen;
    try (intros [= <-]; split; [reflexivity|simpl; lia]);
    [simpl in Hlen; lia|].
  simpl in Hlen.
  destruct (Z.eqb_spec C 37) as [->|HC].
  - destruct rest as [|h1 [|h2 rest1]]; try discriminate.
    rewrite decode_escape.
    destruct (ParseHexOctet h1 h2) as [B|] eqn:HB; [|discriminate].
    assert (Hh : is_hex_digit h1 && is_hex_digit h2 = true).
    { destruct (continuation_some 37 h1 h2 B) as [_ Hh]; [|exact Hh].
      unfold continuation. now rewrite Z.eqb_refl. }
    rewrite (every_percent_escapes_triple h1 h2 rest1 Hh).
    simpl in Hlen.
    destruct (leading_ones B) as [|[|[|[|[|k]]]]]; try discriminate.
    + destruct (decodeURIComponent rest1) as [R|] eqn:HR; [|discriminate].
      intros [= <-].
      destruct (IH rest1 R) as [He Hl]; [lia|exact HR|].
      split; [exact He|simpl; lia].
    + destruct rest1 as [|p1 [|x1 [|y1 rest2]]]; try discriminate.
      destruct (continuation p1 x1 y1) as [c1|] eqn:H1; [|discriminate].
      apply continuation_some in H1 as [-> H1]. intros Hr.
      apply append_code_point_returns in Hr as (V & R & _ & HR & ->).
      destruct (IH rest2 R) as [He Hl]; [simpl in Hlen; lia|exact HR|].
      rewrite (every_percent_escapes_triple _ _ _ H1).
      pose proof (UTF16EncodeCodePoint_length V).
      split; [exact He|rewrite length_app; simpl; lia].
    + destruct rest1 as [|p1 [|x1 [|y1 [|p2 [|x2 [|y2 rest2]]]]]];
        try discriminate.
      destruct (continuation p1 x1 y1) as [c1|] eqn:H1; [|discriminate].
      destruct (continuation p2 x2 y2) as [c2|] eqn:H2; [|discriminate].
      apply continuation_some in H1 as [-> H1].
      apply continuation_some in H2 as [-> H2]. intros Hr.
      apply append_code_point_returns in Hr as (V & R & _ & HR & ->).
      destruct (IH rest2 R) as [He Hl]; [simpl in Hlen; lia|exact HR|].
      rewrite (every_percent_escapes_triple _ _ _ H1),
        (every_percent_escapes_triple _ _ _ H2).
      pose proof (UTF16EncodeCodePoint_length V).
      split; [exact He|rewrite length_app; simpl; lia].
    + destruct rest1
        as [|p1 [|x1 [|y1 [|p2 [|x2 [|y2 [|p3 [|x3 [|y3 rest2]]]]]]]]];
        try discriminate.
      destruct (continuation p1 x1 y1) as [c1|] eqn:H1; [|discriminate].
      destruct (continuation p2 x2 y2) as [c2|] eqn:H2; [|discriminate].
      destruct (continuation p3 x3 y3) as [c3|] eqn:H3; [|discriminate].
      apply continuation_some in H1 as [-> H1].
      apply continuation_some in H2 as [-> H2].
      apply continuation_some in H3 as [-> H3]. intros Hr.
      apply append_code_point_returns in Hr as (V & R & _ & HR & ->).
      destruct (IH rest2 R) as [He Hl]; [simpl in Hlen; lia|exact HR|].
      rewrite (every_percent_escapes_triple _ _ _ H1),
        (every_percent_escapes_triple _ _ _ H2),
        (every_percent_escapes_triple _ _ _ H3).
      pose proof (UTF16EncodeCodePoint_length V).
      split; [exact He|rewrite length_app; simpl; lia].
  - rewrite decode_literal by exact HC.
    destruct (decodeURIComponent rest) as [R|] eqn:HR; [|discriminate].
    simpl. intros [= <-].
    destruct (IH rest R) as [He Hl]; [lia|exact HR|].
    split; [|simpl; lia].
    cbn [every_percent_escapes].
    replace (C =? 37) with false by (symmetry; now apply Z.eqb_neq).
    exact He.
Qed.

(** X22. [decodeHashComponent] returns only when every ['.'] and ['%'] of
    its argument is followed by two hexadecimal digits, and what it
    returns is never longer than the argument; otherwise it throws and
    leaves its breadcrumb. *)
Theorem decodeHashComponent_returns_only_escaped (s decoded : jsstring)
    (log : list Breadcrumb) :
  decodeHashComponent s = (Returns decoded, log) ->
  every_percent_escapes (replace_dots s) = true
  /\ (length decoded <= length s)%nat
  /\ log = [].
Proof.
  unfold decodeHashComponent.
  destruct (decodeURIComponent (replace_dots s)) as [r|] eqn:Hr;
    [|discriminate].
  intros [= <- <-].
  destruct (decode_well_escaped (length (replace_dots s)) _ _ (le_n _) Hr)
    as [He Hl].
  unfold replace_dots in Hl. rewrite length_map in Hl. auto.
Qed.

Lemma decodeHashComponent_returns_only_escaped_witness :
  decodeHashComponent (js "a.2Fb.C3.A9") = (Returns [97; 47; 98; 0xE9], [])
  /\ every_percent_escapes (replace_dots (js "a.2Fb.C3.A9")) = true
  /\ (length [97; 47; 98; 0xE9]%Z <= length (js "a.2Fb.C3.A9"))%nat
  /\ (@nil Breadcrumb) = [].
Proof.
  split; [reflexivity|].
  apply (decodeHashComponent_returns_only_escaped (js "a.2Fb.C3.A9")).
  reflexivity.
Defined.

Example decodeHashComponent_truncated :
  map (fun s => fst (decodeHashComponent (js s)))
    ["topic."; "a.2"; "a.zz"; "50%"; ".C3"; ".ED.A0.80"]%string
  = [Throws URIError; Throws URIError; Throws URIError; Throws URIError;
     Throws URIError; Throws URIError].
Proof. vm_compute. reflexivity. Qed.

End InternalLinks.


(** ** [src/webview/html/messageListElementHtml.js] *)

Module MessageListElementHtml.
Import JS.

(** [a.join(sep)] on an array of strings. *)
Fixpoint join (a : list jsstring) (sep : jsstring) : jsstring :=
  match a with
  | [] => []
  | [x] => x
  | x :: a' => x ++ sep ++ join a' sep
  end.

(** [a.map(f)] for a callback that may throw: elements are visited in
    order and the first exception ends the call. *)
Fixpoint Array_map {A B} (f : A -> outcome B) (a : list A)
  : outcome (list B) :=
  match a with
  | [] => Returns []
  | x :: a' =>
      bind (f x) (fun y =>
        bind (Array_map f a') (fun ys => Returns (y :: ys)))
  end.

(** A message-list element: its [type] property and the rest of it. *)
Record MessageListElement (Payload : Type) : Type :=
  { type : jsstring; payload : Payload }.
Arguments type {Payload} _.
Arguments payload {Payload} _.

(** The three values of [element.type] the [switch] has a case for. *)
Definition known_type {Payload} (x : MessageListElement Payload) : Prop :=
  type x = js "time" \/ type x = js "header" \/ type x = js "message".

Section Html.
Context {BackgroundData Narrow GetText Payload : Type}.

(** The templates imported from [./time], [./header] and [./message], and
    [ensureUnreachable] of [../../generics]. *)
Variable time : MessageListElement Payload -> outcome jsstring.
Variable header :
  BackgroundData -> MessageListElement Payload -> outcome jsstring.
Variable message :
  BackgroundData -> MessageListElement Payload -> GetText -> outcome jsstring.
Variable ensureUnreachable : MessageListElement Payload -> outcome unit.

(** The callback given to [map]: the [switch] on [element.type]. *)
Definition elementHtml (backgroundData : BackgroundData) (_t : GetText)
    (element : MessageListElement Payload) : outcome jsstring :=
  if strict_equal (type element) (js "time") then time element
  else if strict_equal (type element) (js "header")
  then header backgroundData element
  else if strict_equal (type element) (js "message")
  then message backgroundData element _t
  else
    bind (ensureUnreachable element) (fun _ =>
      Throws (Error (js "Unidentified element.type: '"
                     ++ type element ++ js "'"))).

Definition messageListElementHtml (backgroundData : BackgroundData)
    (narrow : Narrow) (messageListElements : list (MessageListElement Payload))
    (_t : GetText) : outcome jsstring :=
  bind (Array_map (elementHtml backgroundData _t) messageListElements)
    (fun htmls => Returns (join htmls [])).

(** *** Rendering is a homomorphism *)

Lemma join_empty_separator (a : list jsstring) : join a [] = concat a.
Proof.
  induction a as [|x a IH]; [reflexivity|].
  destruct a as [|y a]; [symmetry; apply app_nil_r|].
  change (join (x :: y :: a) []) with (x ++ [] ++ join (y :: a) []).
  now rewrite IH.
Qed.

Lemma join_app (a b : list jsstring) :
  join (a ++ b) [] = join a [] ++ join b [].
Proof. rewrite !join_empty_separator. apply concat_app. Qed.

Lemma Array_map_app {A B} (f : A -> outcome B) (xs ys : list A) :
  Array_map f (xs ++ ys)
  = bind (Array_map f xs) (fun a =>
      bind (Array_map f ys) (fun b => Returns (a ++ b))).
Proof.
  induction xs as [|x xs IH]; simpl.
  - now destruct (Array_map f ys).
  - destruct (f x) as [y|e]; simpl; [|reflexivity].
    rewrite IH. destruct (Array_map f xs) as [a|e]; simpl; [|reflexivity].
    now destruct (Array_map f ys).
Qed.

(** C10.  With the same [backgroundData], [narrow] and [_], the HTML of
    [xs ++ ys] is the HTML of [xs] followed by the HTML of [ys] (and the
    call throws what the first failing element throws); the empty list
    renders to the empty string; a single element renders to what its
    template returns. *)
Theorem messageListElementHtml_app (backgroundData : BackgroundData)
    (narrow : Narrow) (_t : GetText)
    (xs ys : list (MessageListElement Payload))
    (x : MessageListElement Payload) :
  messageListElementHtml backgroundData narrow (xs ++ ys) _t
  = bind (messageListElementHtml backgroundData narrow xs _t) (fun hx =>
      bind (messageListElementHtml backgroundData narrow ys _t) (fun hy =>
        Returns (hx ++ hy)))
  /\ messageListElementHtml backgroundData narrow [] _t = Returns []
  /\ messageListElementHtml backgroundData narrow [x] _t
     = elementHtml backgroundData _t x.
Proof.
  unfold messageListElementHtml. split; [|split].
  - rewrite Array_map_app.
    destruct (Array_map _ xs) as [a|e]; simpl; [|reflexivity].
    destruct (Array_map _ ys) as [b|e]; simpl; [|reflexivity].
    now rewrite join_app.
  - reflexivity.
  - simpl. now destruct (elementHtml backgroundData _t x).
Qed.

End Html.

(** *** What a returned page is made of *)


Section HtmlFacts.
Context {BackgroundData Narrow GetText Payload : Type}.
Variable time : MessageListElement Payload -> outcome jsstring.
Variable header :
  BackgroundData -> MessageListElement Payload -> outcome jsstring.
Variable message :
  BackgroundData -> MessageListElement Payload -> GetText -> outcome jsstring.
Variable ensureUnreachable : MessageListElement Payload -> outcome unit.

Lemma elementHtml_returns bd _t (x : MessageListElement Payload) h :
  elementHtml time header message ensureUnreachable bd _t x = Returns h ->
  known_type x.
Proof.
  unfold elementHtml, known_type.
  destruct (strict_equal (type x) (js "time")) eqn:E1;
    [apply strict_equal_spec in E1; auto|].
  destruct (strict_equal (type x) (js "header")) eqn:E2;
    [apply strict_equal_spec in E2; auto|].
  destruct (strict_equal (type x) (js "message")) eqn:E3;
    [apply strict_equal_spec in E3; auto|].
  destruct (ensureUnreachable x); discriminate.
Qed.

Lemma Array_map_returns {A B} (f : A -> outcome B) xs ys :
  Array_map f xs = Returns ys -> Forall2 (fun x y => f x = Returns y) xs ys.
Proof.
  revert ys. induction xs as [|x xs IH]; intros ys; simpl.
  - intros [= <-]. constructor.
  - destruct (f x) as [y|] eqn:Hy; [|discriminate]. simpl.
    destruct (Array_map f xs) as [ys'|]; [|discriminate]. simpl.
    intros [= <-]. constructor; auto.
Qed.

(** X23. When [messageListElementHtml] returns, every element had one of
    the three known types and the HTML is the templates' outputs, one per
    element, in order, with nothing between them; so a list with an
    element of any other type is never rendered. *)
Theorem messageListElementHtml_returns
    (backgroundData : BackgroundData) (narrow : Narrow) (_t : GetText)
    (xs : list (MessageListElement Payload)) (html : jsstring) :
  messageListElementHtml time header message ensureUnreachable
    backgroundData narrow xs _t = Returns html ->
  Forall known_type xs
  /\ exists htmls,
      Forall2
        (fun x h =>
           elementHtml time header message ensureUnreachable
             backgroundData _t x = Returns h)
        xs htmls
      /\ html = concat htmls.
Proof.
  unfold messageListElementHtml.
  destruct (Array_map _ xs) as [htmls|] eqn:Hmap; [|discriminate].
  simpl. intros [= <-]. apply Array_map_returns in Hmap.
  split.
  - induction Hmap as [|x h xs htmls Hx _ IH]; constructor; auto.
    now apply elementHtml_returns in Hx.
  - exists htmls. split; [exact Hmap | apply join_empty_separator].
Qed.
End HtmlFacts.


Lemma messageListElementHtml_returns_witness :
  let xs :=
    [{| type := js "time"; payload := [] |};
     {| type := js "message"; payload := js "hi" |}] in
  messageListElementHtml
    (fun x => Returns (js "<time>"))
    (fun (_ : unit) x => Returns (js "<header>"))
    (fun (_ : unit) x (_ : unit) => Returns (js "<message>" ++ payload x))
    (fun _ => Returns tt) tt tt xs tt
  = Returns (js "<time><message>hi")
  /\ Forall known_type xs
  /\ exists htmls,
      Forall2
        (fun x h =>
           elementHtml
             (fun x => Returns (js "<time>"))
             (fun (_ : unit) x => Returns (js "<header>"))
             (fun (_ : unit) x (_ : unit) =>
                Returns (js "<message>" ++ payload x))
             (fun _ => Returns tt) tt tt x = Returns h)
        xs htmls
      /\ js "<time><message>hi" = concat htmls.
Proof.
  split; [reflexivity|].
  apply (messageListElementHtml_returns
           (fun x => Returns (js "<time>"))
           (fun (_ : unit) x => Returns (js "<header>"))
           (fun (_ : unit) x (_ : unit) =>
              Returns (js "<message>" ++ payload x))
           (fun _ => Returns tt) tt tt tt).
  reflexivity.
Defined.

End MessageListElementHtml.


(** ** Adaptation and dispatch of server events *)

Module Dispatch.

(** Modelled from the spec: the three partitions of section 3. *)
Inductive Partition : Set :=
| PerAccount
| AllAccounts
| AccountIndependent.

Section EventLoop.
Context {Event Action : Type}.

(** Modelled from the spec: the sequence id of a server event of the
    real-time stream (sections 3 and 6). *)
Variable id : Event -> Z.

(** Modelled from the spec: the Event Adapter, [adapt(serverEvent) ->
    list<Action>] (section 4.4); the adapter's code is not under [src/]. *)
Variable adapt : Event -> list Action.

(** Modelled from the spec: the Classifier, [classify(action) ->
    Partition] (section 4.3); [None] is a classification failure, after
    which the action is dropped (section 7). *)
Variable classify : Action -> option Partition.

(** Modelled from the spec: the classified dispatch call of section 6,
    [(partition, scopeAccount, action)], with the event it came from. *)
Record Dispatched : Type :=
  { partition : Partition;
    scopeAccount : nat;
    action : Action;
    source : Event }.

(** Modelled from the spec: one ordered queue of server events per account
    connection feeding a single dispatch loop (sections 5 and 9), and the
    dispatch calls made so far, oldest first. *)
Record State : Type :=
  { pending : gmap nat (list Event);
    dispatched : list Dispatched }.

(** Modelled from the spec: [dispatch(action)] (section 4.5) for an action
    adapted from event [e] of account [a]'s connection. *)
Definition dispatch (a : nat) (e : Event) (act : Action)
  : option Dispatched :=
  match classify act with
  | Some p =>
      Some {| partition := p; scopeAccount := a; action := act; source := e |}
  | None => None
  end.

(** Modelled from the spec: an event is adapted and its actions are
    dispatched one after the other, each completing before the next
    (section 4.5). *)
Definition dispatch_event (a : nat) (e : Event) : list Dispatched :=
  omap (dispatch a e) (adapt e).

(** Modelled from the spec: one turn of the loop takes the oldest pending
    event of account [a]'s connection, if there is one. *)
Definition process (a : nat) (st : State) : option State :=
  match pending st !! a with
  | Some (e :: q) =>
      Some {| pending := <[a := q]> (pending st);
              dispatched := dispatched st ++ dispatch_event a e |}
  | _ => None
  end.

(** Modelled from the spec: the loop serves the connections in any order
    (section 5); [schedule] is the order it happens to take, and a turn
    for a connection with nothing pending does nothing. *)
Definition run (schedule : list nat) (st : State) : State :=
  fold_left (fun st a => default st (process a st)) schedule st.

Definition initial (streams : gmap nat (list Event)) : State :=
  {| pending := streams; dispatched := [] |}.

(** The dispatch calls made for account [a], oldest first. *)
Definition dispatched_for (a : nat) (st : State) : list Dispatched :=
  filter (fun d => scopeAccount d = a) (dispatched st).

(** *** Order preservation *)

Lemma dispatch_event_scope a e d :
  d ∈ dispatch_event a e -> scopeAccount d = a /\ source d = e.
Proof.
  unfold dispatch_event. rewrite list_elem_of_omap.
  intros (act & _ & Hd). unfold dispatch in Hd.
  destruct (classify act); [|discriminate].
  injection Hd as <-. auto.
Qed.

Lemma filter_all {A} (P : A -> Prop) `{forall x, Decision (P x)} l :
  Forall P l -> filter P l = l.
Proof.
  induction 1 as [|x l Hx _ IH]; [reflexivity|].
  now rewrite filter_cons_True, IH.
Qed.

Lemma filter_none {A} (P : A -> Prop) `{forall x, Decision (P x)} l :
  Forall (fun x => ~ P x) l -> filter P l = [].
Proof.
  induction 1 as [|x l Hx _ IH]; [reflexivity|].
  now rewrite filter_cons_False.
Qed.

Lemma filter_dispatch_event_same a e :
  filter (fun d => scopeAccount d = a) (dispatch_event a e)
  = dispatch_event a e.
Proof.
  apply filter_all. apply Forall_forall.
  intros d Hd. now apply dispatch_event_scope in Hd as [-> _].
Qed.

Lemma filter_dispatch_event_other a a' e :
  a' <> a ->
  filter (fun d => scopeAccount d = a) (dispatch_event a' e) = [].
Proof.
  intros Hne. apply filter_none. apply Forall_forall.
  intros d Hd Hscope. apply dispatch_event_scope in Hd as [Hd _]. congruence.
Qed.

(** What is known of one account's connection in a state. *)
Definition served (es : list Event) (a : nat) (st : State) : Prop :=
  exists done rest,
    es = done ++ rest
    /\ pending st !! a = Some rest
    /\ dispatched_for a st = flat_map (dispatch_event a) done.

Lemma served_process es a a' st :
  served es a st -> served es a (default st (process a' st)).
Proof.
  intros (done & rest & Hes & Hpending & Hlog).
  unfold served, process.
  destruct (pending st !! a') as [[|e q]|] eqn:Hq; simpl;
    [exists done, rest; auto | | exists done, rest; auto].
  unfold dispatched_for in *. simpl.
  rewrite filter_app, Hlog.
  destruct (decide (a' = a)) as [->|Hne].
  - rewrite Hq in Hpending. injection Hpending as <-.
    exists (done ++ [e]), q. rewrite <- app_assoc. split; [exact Hes|].
    rewrite lookup_insert_eq. split; [reflexivity|].
    rewrite filter_dispatch_event_same, flat_map_app. simpl.
    now rewrite app_nil_r.
  - exists done, rest. rewrite lookup_insert_ne by exact Hne.
    rewrite filter_dispatch_event_other by exact Hne.
    now rewrite app_nil_r.
Qed.

Lemma served_run es a schedule :
  forall st, served es a st -> served es a (run schedule st).
Proof.
  induction schedule as [|a' schedule IH]; intros st Hst; [exact Hst|].
  simpl. apply IH. now apply served_process.
Qed.

Lemma dispatch_event_same_source a e :
  StronglySorted (fun x y => id (source x) <= id (source y))
    (dispatch_event a e).
Proof.
  assert (H : Forall (fun d => source d = e) (dispatch_event a e)).
  { apply Forall_forall. intros d Hd. now apply dispatch_event_scope in Hd. }
  induction H as [|d l Hd Hl IH]; constructor; [exact IH|].
  eapply Forall_impl; [exact Hl|]. simpl. intros d' ->. rewrite Hd. lia.
Qed.

Lemma expansion_sorted a done :
  StronglySorted Z.lt (map id done) ->
  StronglySorted (fun x y => id (source x) <= id (source y))
    (flat_map (dispatch_event a) done).
Proof.
  induction done as [|e done IH]; simpl; [constructor|].
  intros Hsorted. apply StronglySorted_inv in Hsorted as [Hdone He].
  apply StronglySorted_app_2; [|apply dispatch_event_same_source|auto].
  intros x1 x2 H1 H2.
  apply dispatch_event_scope in H1 as [_ ->].
  apply list_elem_of_In, in_flat_map in H2 as (e' & He' & H2).
  apply list_elem_of_In, dispatch_event_scope in H2 as [_ ->].
  rewrite Forall_forall in He.
  assert (Hin : id e' ∈ map id done) by apply list_elem_of_In, in_map, He'.
  specialize (He _ Hin). lia.
Qed.

(** C6.  Whatever order the loop serves the connections in, what has been
    dispatched for an account is, in order, the expansion of the events
    already taken from its stream, the events still pending are the rest
    of the stream, and, the sequence ids of the stream being strictly
    increasing, no dispatched action comes before one adapted from an
    earlier event. *)
Theorem order_preservation (streams : gmap nat (list Event))
    (schedule : list nat) (a : nat) (es : list Event) :
  streams !! a = Some es ->
  StronglySorted Z.lt (map id es) ->
  let st := run schedule (initial streams) in
  exists done rest,
    es = done ++ rest
    /\ pending st !! a = Some rest
    /\ dispatched_for a st = flat_map (dispatch_event a) done
    /\ StronglySorted (fun x y => id (source x) <= id (source y))
         (dispatched_for a st).
Proof.
  intros Hes Hsorted st.
  assert (Hinit : served es a (initial streams)).
  { exists [], es. split; [reflexivity|]. split; [exact Hes|reflexivity]. }
  destruct (served_run es a schedule _ Hinit) as (done & rest & H1 & H2 & H3).
  exists done, rest. repeat split; try assumption.
  fold st in H3. rewrite H3. apply expansion_sorted.
  rewrite H1, map_app in Hsorted.
  now apply StronglySorted_app_1_l in Hsorted.
Qed.

End EventLoop.

(** Two connections: events are an id with the numbers they expand to,
    and 0 is a number the classifier does not know. *)
Definition example_streams : gmap nat (list (Z * list nat)) :=
  {[ 1%nat := [(1, [10; 11]%nat); (2, []); (5, [0; 12]%nat)];
     2%nat := [(3, [20]%nat)] ]}.

Definition example_classify (n : nat) : option Partition :=
  match n with
  | O => None
  | _ => Some PerAccount
  end.

Lemma order_preservation_witness :
  let st :=
    run snd example_classify [1; 2; 1; 7; 1]%nat (initial example_streams) in
  let es := [(1, [10; 11]%nat); (2, []); (5, [0; 12]%nat)] in
  example_streams !! 1%nat = Some es
  /\ StronglySorted Z.lt (map fst es)
  /\ exists done rest,
      es = done ++ rest
      /\ pending st !! 1%nat = Some rest
      /\ dispatched_for 1 st
         = flat_map (dispatch_event snd example_classify 1) done
      /\ StronglySorted (fun x y => fst (source x) <= fst (source y))
           (dispatched_for 1 st).
Proof.
  assert (Hes : example_streams !! 1%nat
                = Some [(1, [10; 11]%nat); (2, []); (5, [0; 12]%nat)])
    by reflexivity.
  assert (Hsorted : StronglySorted Z.lt
                      (map fst [(1, [10; 11]%nat); (2, []); (5, [0; 12]%nat)]))
    by (repeat constructor; lia).
  split; [exact Hes|]. split; [exact Hsorted|].
  exact (order_preservation fst snd example_classify example_streams
           [1; 2; 1; 7; 1]%nat 1%nat _ Hes Hsorted).
Defined.

Example run_example :
  map (fun d => (scopeAccount d, fst (source d), action d))
    (dispatched
       (run snd example_classify [1; 2; 1; 7; 1]%nat
          (initial example_streams)))
  = [(1%nat, 1, 10%nat); (1%nat, 1, 11%nat); (2%nat, 3, 20%nat);
     (1%nat, 5, 12%nat)].
Proof. vm_compute. reflexivity. Qed.

End Dispatch.
